(** * SUPRA TorchInference: patch planning, reassembly and error paths

    A shallow embedding of [TorchInference::process] and
    [TorchInference::copyPatchToOutput]
    (src/SupraLib/Processing/TorchInference.h).

    - [size_t] values are integers in [0, 2^64) and [uint32_t] values
      integers in [0, 2^32); every arithmetic operation of the source is
      followed by the wrap-around of its C++ type ([wrap64], [wrap32]).
    - The planning loop of [process] is [Planner.planLoop]; its body
      (lines 74-106) is [Planner.planPatch].
    - The output container is a list of cells addressed by index; a write
      outside of it is undefined behaviour and makes the model return
      [None].
    - [process] is [Inference.process]: the model, the tensor library and
      the helpers defined outside of the header are parameters, an
      exception is a value of [Inference.Exc], and a flag tells whether the
      [assert]s are compiled in. *)

From Stdlib Require Import ZArith Lia Bool List Sorted Ascii String.
From stdpp Require Import base tactics option list list_numbers strings.

Local Open Scope Z_scope.

(** ** Machine integers *)

Definition wrap64 (z : Z) : Z := z mod 2 ^ 64.
Definition wrap32 (z : Z) : Z := z mod 2 ^ 32.

(** ** The patch planner (process, lines 61-106) *)

Module Planner.

(** The four quantities one loop iteration computes; [startPixelValid] is the
    loop cursor at the top of that iteration. *)
Record Patch : Set := mkPatch {
  startPixelValid : Z;
  startPixel : Z;
  patchSize : Z;
  patchSizeValid : Z
}.

(** Lines 61-64: [inferencePatchSize] is a [uint32_t], [inputSize.x] a
    [size_t]; the assignment converts to 32 bits. *)
Definition effectivePatchSize (inferencePatchSize inputSizeX : Z) : Z :=
  if inferencePatchSize =? 0 then wrap32 inputSizeX else inferencePatchSize.

(** Line 65: the asserted condition, with the [uint32_t] product. *)
Definition patchSizeAssertion (inferencePatchSize inferencePatchOverlap : Z) : bool :=
  wrap32 (inferencePatchOverlap * 2) <? inferencePatchSize.

(** Lines 74-106: the body of the planning loop. *)
Definition planPatch (numPixels inferencePatchSize inferencePatchOverlap : Z)
    (startPixelValid : Z) : Patch :=
  if (startPixelValid =? 0)
     && (wrap64 (numPixels - startPixelValid) <=? inferencePatchSize)
  then
    let patchSize := wrap64 (numPixels - startPixelValid) in
    let patchSizeValid := patchSize in
    mkPatch startPixelValid 0 patchSize patchSizeValid
  else if startPixelValid =? 0 then
    let patchSize := inferencePatchSize in
    let patchSizeValid := wrap64 (patchSize - inferencePatchOverlap) in
    mkPatch startPixelValid 0 patchSize patchSizeValid
  else if wrap64 (numPixels - wrap64 (startPixelValid - inferencePatchOverlap))
          <=? inferencePatchSize
  then
    let startPixel := wrap64 (startPixelValid - inferencePatchOverlap) in
    let patchSize := wrap64 (numPixels - startPixel) in
    let patchSizeValid := wrap64 (patchSize - inferencePatchOverlap) in
    mkPatch startPixelValid startPixel patchSize patchSizeValid
  else
    let startPixel := wrap64 (startPixelValid - inferencePatchOverlap) in
    let patchSize := inferencePatchSize in
    let patchSizeValid := wrap64 (patchSize - wrap32 (2 * inferencePatchOverlap)) in
    mkPatch startPixelValid startPixel patchSize patchSizeValid.

(** Lines 70-71 and 106: the [for] loop, cursor [startPixelValid] advanced by
    [lastValidPixels].  The loop of the source need not terminate, so the
    model counts iterations: [None] when [fuel] iterations did not reach
    the exit. *)
Fixpoint planLoop (fuel : nat) (numPixels inferencePatchSize inferencePatchOverlap : Z)
    (startPixelValid : Z) : option (list Patch) :=
  if startPixelValid <? numPixels then
    match fuel with
    | O => None
    | S fuel' =>
        let p := planPatch numPixels inferencePatchSize inferencePatchOverlap
                   startPixelValid in
        let lastValidPixels := patchSizeValid p in
        match planLoop fuel' numPixels inferencePatchSize inferencePatchOverlap
                (wrap64 (startPixelValid + lastValidPixels)) with
        | Some l => Some (p :: l)
        | None => None
        end
    end
  else Some [].

(** Position [x] of the axis lies in the valid sub-window of [p]. *)
Definition inValid (x : Z) (p : Patch) : bool :=
  (startPixelValid p <=? x) && (x <? startPixelValid p + patchSizeValid p).

(** Number of emitted valid sub-windows that contain [x]. *)
Definition coverCount (x : Z) (l : list Patch) : nat :=
  length (List.filter (inValid x) l).

(** The values the cursor takes at the top of an iteration when
    [2 * inferencePatchOverlap < inferencePatchSize]: zero, or past the
    first patch of an axis longer than one patch. *)
Definition cursorReachable (numPixels inferencePatchSize inferencePatchOverlap : Z)
    (startPixelValid : Z) : Prop :=
  startPixelValid = 0
  \/ (inferencePatchSize - inferencePatchOverlap <= startPixelValid
      /\ inferencePatchSize < numPixels).

(** [chain a b l]: the iterations [l] start with the cursor at [a], each one
    is the loop body run at a reachable cursor below [numPixels], makes
    positive progress without wrap-around, hands its end to the next one,
    and the last one ends in [b]. *)
Fixpoint chain (numPixels inferencePatchSize inferencePatchOverlap : Z)
    (a b : Z) (l : list Patch) : Prop :=
  match l with
  | [] => a = b
  | p :: l' =>
      p = planPatch numPixels inferencePatchSize inferencePatchOverlap a
      /\ cursorReachable numPixels inferencePatchSize inferencePatchOverlap a
      /\ 0 <= a < numPixels
      /\ startPixelValid p = a
      /\ 0 < patchSizeValid p
      /\ a + patchSizeValid p <= b
      /\ chain numPixels inferencePatchSize inferencePatchOverlap
           (a + patchSizeValid p) b l'
  end.

End Planner.

(** ** Volume sizes *)

Module vec.
(** Modelled from the spec: [vec3s] is declared in vec.h, outside of src/.
    Section 3: a volume size is a 3-tuple of non-negative integers
    (x, y, z).  [process] reads the components into [size_t] variables. *)
Record vec3s : Set := mk { x : Z; y : Z; z : Z }.
End vec.
Abbreviation vec3s := vec.vec3s.

(** ** The patch reassembler (copyPatchToOutput, lines 222-284) *)

Module Reassembler.

(** Index of the first occurrence of [c] in [s], counted from [i]; [-1] when
    there is none. *)
Fixpoint findFrom (c : ascii) (s : string) (i : Z) : Z :=
  match s with
  | EmptyString => -1
  | String c' s' => if Ascii.eqb c c' then i else findFrom c s' (i + 1)
  end.

(** Modelled from the spec: [layoutPermutation] is declared at line 290 and
    defined outside of TorchInference.h.  Section 4.1: [permutation[i]] is
    the index, in [currentLayout], of the axis that occupies position [i]
    in [outLayout].  A token of [outLayout] that [currentLayout] lacks is
    outside of the precondition stated there; it yields [-1] here. *)
Definition layoutPermutation (currentLayout outLayout : string) : list Z :=
  (fun c => findFrom c currentLayout 0) <$> list_ascii_of_string outLayout.

(** The nine loop bounds and offsets of lines 236-244. *)
Record Ranges : Set := mkRanges {
  outSliceStart : Z; outSliceEnd : Z; outSliceOffset : Z;
  outLineStart : Z; outLineEnd : Z; outLineOffset : Z;
  outPixelStart : Z; outPixelEnd : Z; outPixelOffset : Z
}.

(** Lines 236-265.  [permutation] is a [std::vector<int64_t>]: reading it
    past its end is undefined, [None] here.  The conditions are evaluated
    in order, each only when the earlier ones failed. *)
Definition patchRanges (permutation : list Z) (outputSize : vec3s)
    (startPixelValid startPixel patchSizeValid : Z) : option Ranges :=
  let full :=
    mkRanges 0 (vec.z outputSize) 0 0 (vec.y outputSize) 0 0 (vec.x outputSize) 0 in
  p1 ← permutation !! 1%nat;
  if p1 =? 3 then
    Some (mkRanges startPixelValid (wrap64 (startPixelValid + patchSizeValid)) startPixel
                   0 (vec.y outputSize) 0
                   0 (vec.x outputSize) 0)
  else
    p2 ← permutation !! 2%nat;
    if p2 =? 3 then
      Some (mkRanges 0 (vec.z outputSize) 0
                     startPixelValid (wrap64 (startPixelValid + patchSizeValid)) startPixel
                     0 (vec.x outputSize) 0)
    else
      p3 ← permutation !! 3%nat;
      if p3 =? 3 then
        Some (mkRanges 0 (vec.z outputSize) 0
                       0 (vec.y outputSize) 0
                       startPixelValid (wrap64 (startPixelValid + patchSizeValid)) startPixel)
      else Some full.

(** The three axes of the output volume and what [Ranges] holds for each. *)
Inductive Axis : Set := SliceAxis | LineAxis | PixelAxis.

Definition axisStart (r : Ranges) (a : Axis) : Z :=
  match a with
  | SliceAxis => outSliceStart r
  | LineAxis => outLineStart r
  | PixelAxis => outPixelStart r
  end.

Definition axisEnd (r : Ranges) (a : Axis) : Z :=
  match a with
  | SliceAxis => outSliceEnd r
  | LineAxis => outLineEnd r
  | PixelAxis => outPixelEnd r
  end.

Definition axisOffset (r : Ranges) (a : Axis) : Z :=
  match a with
  | SliceAxis => outSliceOffset r
  | LineAxis => outLineOffset r
  | PixelAxis => outPixelOffset r
  end.

Definition axisExtent (outputSize : vec3s) (a : Axis) : Z :=
  match a with
  | SliceAxis => vec.z outputSize
  | LineAxis => vec.y outputSize
  | PixelAxis => vec.x outputSize
  end.

(** Axis [a] keeps its full extent and a zero offset. *)
Definition fullExtent (outputSize : vec3s) (r : Ranges) (a : Axis) : Prop :=
  axisStart r a = 0 /\ axisEnd r a = axisExtent outputSize a /\ axisOffset r a = 0.

(** Axis [a] runs over [startPixelValid, startPixelValid + patchSizeValid)
    (the [size_t] sum) with offset [startPixel]. *)
Definition narrowedTo (r : Ranges) (a : Axis)
    (startPixelValid startPixel patchSizeValid : Z) : Prop :=
  axisStart r a = startPixelValid
  /\ axisEnd r a = wrap64 (startPixelValid + patchSizeValid)
  /\ axisOffset r a = startPixel.

(** The axis the comparisons of lines 248, 254 and 260 select: the first of
    positions 1, 2, 3 of the permutation that holds 3, if any. *)
Definition tiledAxis (permutation : list Z) : option Axis :=
  if decide (permutation !! 1%nat = Some 3) then Some SliceAxis
  else if decide (permutation !! 2%nat = Some 3) then Some LineAxis
  else if decide (permutation !! 3%nat = Some 3) then Some PixelAxis
  else None.

(** The coordinate lies in the three loop ranges. *)
Definition inRanges (r : Ranges) (slice line pixel : Z) : Prop :=
  outSliceStart r <= slice < outSliceEnd r
  /\ outLineStart r <= line < outLineEnd r
  /\ outPixelStart r <= pixel < outPixelEnd r.

(** The row-major address of a coordinate, as an integer. *)
Definition rowMajor (outputSize : vec3s) (slice line pixel : Z) : Z :=
  slice * vec.y outputSize * vec.x outputSize + line * vec.x outputSize + pixel.

(** [for (size_t i = start; i < end; i++) body]: the iterations run over
    [start, start+1, ..., end-1]; an iteration that fails ends the loop. *)
Fixpoint forEach {S : Type} (l : list Z) (body : Z -> S -> option S) (s : S) : option S :=
  match l with
  | [] => Some s
  | i :: l' => s' ← body i s; forEach l' body s'
  end.

Definition forRange {S : Type} (start end_ : Z) (body : Z -> S -> option S) (s : S)
    : option S :=
  forEach (seqZ start (end_ - start)) body s.

(** A [size_t] used as the [int64_t] index of a tensor accessor. *)
Definition toInt64 (i : Z) : Z := if i <? 2 ^ 63 then i else i - 2 ^ 64.

(** [pDataOut->get()[addr] = v]; outside of the container the write is
    undefined. *)
Definition store {T : Type} (buf : list T) (addr : Z) (v : T) : option (list T) :=
  if decide (0 <= addr < Z.of_nat (length buf))
  then Some (<[Z.to_nat addr := v]> buf)
  else None.

(** Lines 274-276: the address expression, in [size_t] arithmetic. *)
Definition outputAddress (outputSize : vec3s) (outSliceIdx outLineIdx outPixelIdx : Z) : Z :=
  wrap64 (wrap64 (wrap64 (wrap64 (outSliceIdx * vec.y outputSize) * vec.x outputSize)
                  + wrap64 (outLineIdx * vec.x outputSize))
          + outPixelIdx).

Section CopyPatch.
(** [V]: samples of the model output tensor; [T]: cells of the output
    container.  [clampCast] (utilities, outside of src/) is a parameter. *)
Context {V T : Type}.
Variable clampCast : V -> T.

(** Lines 277-280: the sample read for one output coordinate. *)
Definition patchSample (outAccessor : Z -> Z -> Z -> Z -> V) (r : Ranges)
    (outSliceIdx outLineIdx outPixelIdx : Z) : T :=
  clampCast (outAccessor 0
               (toInt64 (wrap64 (outSliceIdx - outSliceOffset r)))
               (toInt64 (wrap64 (outLineIdx - outLineOffset r)))
               (toInt64 (wrap64 (outPixelIdx - outPixelOffset r)))).

(** Lines 267-283: the three nested loops. *)
Definition copyLoops (outAccessor : Z -> Z -> Z -> Z -> V) (outputSize : vec3s)
    (r : Ranges) (pDataOut : list T) : option (list T) :=
  forRange (outSliceStart r) (outSliceEnd r) (fun outSliceIdx buf =>
    forRange (outLineStart r) (outLineEnd r) (fun outLineIdx buf =>
      forRange (outPixelStart r) (outPixelEnd r) (fun outPixelIdx buf =>
        store buf (outputAddress outputSize outSliceIdx outLineIdx outPixelIdx)
              (patchSample outAccessor r outSliceIdx outLineIdx outPixelIdx))
      buf)
    buf)
  pDataOut.

(** The same loops seen as the sequence of writes they perform. *)
Definition patchWrites (outAccessor : Z -> Z -> Z -> Z -> V) (outputSize : vec3s)
    (r : Ranges) : list (Z * T) :=
  outSliceIdx ← seqZ (outSliceStart r) (outSliceEnd r - outSliceStart r);
  outLineIdx ← seqZ (outLineStart r) (outLineEnd r - outLineStart r);
  outPixelIdx ← seqZ (outPixelStart r) (outPixelEnd r - outPixelStart r);
  [(outputAddress outputSize outSliceIdx outLineIdx outPixelIdx,
    patchSample outAccessor r outSliceIdx outLineIdx outPixelIdx)].

Fixpoint storeAll (writes : list (Z * T)) (buf : list T) : option (list T) :=
  match writes with
  | [] => Some buf
  | (addr, v) :: writes' => buf' ← store buf addr v; storeAll writes' buf'
  end.

(** The whole function; [outAccessor] is [output.accessor<ModelOutputType, 4>()],
    whose own bounds belong to the tensor library. *)
Definition copyPatchToOutput (outAccessor : Z -> Z -> Z -> Z -> V) (pDataOut : list T)
    (modelOutputLayout finalLayout : string) (outputSize : vec3s)
    (startPixelValid startPixel patchSizeValid : Z) : option (list T) :=
  let permutation := layoutPermutation modelOutputLayout finalLayout in
  r ← patchRanges permutation outputSize startPixelValid startPixel patchSizeValid;
  copyLoops outAccessor outputSize r pDataOut.
End CopyPatch.

End Reassembler.

(** ** The inference call (process, lines 34-220) *)

Module Inference.
Import Planner Reassembler.

(** Element types a torch tensor reports at run time ([c10::ScalarType]). *)
Inductive ScalarType : Set :=
| kUInt8 | kInt8 | kInt16 | kInt32 | kInt64
| kHalf | kFloat | kDouble
| kComplexHalf | kComplexFloat | kComplexDouble
| kBool | kQInt8 | kQUInt8 | kQInt32 | kBFloat16.

#[global] Instance ScalarType_eq_dec : EqDecision ScalarType.
Proof. solve_decision. Defined.

(** Modelled from the spec: [DataType] is declared in Container.h, outside of
    src/.  Section 4.3: the type hints range over 8/16/32/64-bit signed and
    unsigned integers, 32/64-bit floating point and a reduced-precision
    float type.  [process] only compares a hint with [TypeHalf]. *)
Inductive DataType : Set :=
| TypeInt8 | TypeUint8 | TypeInt16 | TypeUint16 | TypeInt32 | TypeUint32
| TypeInt64 | TypeUint64 | TypeHalf | TypeFloat | TypeDouble.

#[global] Instance DataType_eq_dec : EqDecision DataType.
Proof. solve_decision. Defined.

(** The first template argument of [copyPatchToOutput]. *)
Inductive ModelOutputType : Set :=
| int8_t | uint8_t | int16_t | int32_t | int64_t | float | double.

(** The two exception types [process] catches. *)
Inductive Exception : Set :=
| c10_Error (what msg_stack : string)
| std_runtime_error (what : string).

(** A computation that returns or throws. *)
Inductive Exc (A : Type) : Type :=
| Ok (a : A)
| Throw (e : Exception).
Arguments Ok {A} a.
Arguments Throw {A} e.

#[global] Instance Exc_ret : MRet Exc := fun A a => Ok a.
#[global] Instance Exc_bind : MBind Exc := fun A B f m =>
  match m with
  | Ok a => f a
  | Throw e => Throw e
  end.

Section Process.
(** [V]: samples of tensors; [T]: the [OutputType] of the container. *)
Context {V T : Type}.

(** A tensor: its run-time element type and its four-index accessor. *)
Record Tensor : Type := mkTensor {
  dtype : ScalarType;
  accessor : Z -> Z -> Z -> Z -> V
}.

(** A loaded script module or compilation unit: the method process calls. *)
Definition Method : Type := Tensor -> Exc Tensor.

(** The members of [TorchInference] (lines 292-298); a null pointer is
    [None]. *)
Record TorchInference : Type := mkTorchInference {
  m_torchModule : option Method;
  m_inputNormalizationModule : option Method;
  m_outputDenormalizationModule : option Method;
  m_modelFilename : string
}.

(** What [process] uses from libtorch and from the parts of SUPRA outside
    of TorchInference.h. *)
Record Externals : Type := mkExternals {
  slice : Tensor -> Z -> Z -> Z -> Exc Tensor;
  convertDataType : Tensor -> DataType -> Exc Tensor;
  changeLayout : Tensor -> string -> string -> Exc Tensor;
  castSample : ScalarType -> ScalarType -> V -> V;
  clampCast : ModelOutputType -> V -> T
}.

(** [tensor.to(d)]. *)
Definition to_ (ext : Externals) (d : ScalarType) (t : Tensor) : Tensor :=
  mkTensor d (fun n s l p => castSample ext (dtype t) d (accessor t n s l p)).

(** The output container: a cell that was allocated and never written is
    [None]. *)
Definition Container : Type := list (option T).

(** Line 68: [std::make_shared<Container<OutputType> >(..., x*y*z)]. *)
Definition allocate (outputSize : vec3s) : Container :=
  replicate
    (Z.to_nat (wrap64 (wrap64 (vec.x outputSize * vec.y outputSize) * vec.z outputSize)))
    None.

Variable self : TorchInference.
Variable ext : Externals.
Variable inputData : Tensor.
Variables inputSize outputSize : vec3s.
Variables currentLayout finalLayout : string.
Variables modelInputDataType modelOutputDataType : DataType.
Variables modelInputLayout modelOutputLayout : string.

(** Lines 108-156: one patch through the model; [forward] is the method of
    the module [m_torchModule] points to. *)
Definition runPatch (forward : Method) (p : Patch) : Exc Tensor :=
  inputDataPatch ← slice ext inputData 3 (startPixel p)
                     (wrap64 (startPixel p + patchSize p));
  inputDataPatch ← convertDataType ext inputDataPatch modelInputDataType;
  inputDataPatch ← changeLayout ext inputDataPatch currentLayout modelInputLayout;
  inputDataPatchIvalue ←
    match m_inputNormalizationModule self with
    | Some normalize => normalize inputDataPatch
    | None => Ok inputDataPatch
    end;
  result ← forward inputDataPatchIvalue;
  result ←
    match m_outputDenormalizationModule self with
    | Some denormalize => denormalize result
    | None => Ok result
    end;
  output ← changeLayout ext result modelOutputLayout finalLayout;
  let output :=
    if decide (modelOutputDataType = TypeHalf) then to_ ext kFloat output else output in
  Ok output.

(** One instantiation of [copyPatchToOutput<ModelOutputType, OutputType>]. *)
Definition copyPatch (mt : ModelOutputType) (output : Tensor) (pDataOut : Container)
    (p : Patch) : option Container :=
  copyPatchToOutput (fun v => Some (clampCast ext mt v)) (accessor output) pDataOut
    modelOutputLayout finalLayout outputSize
    (startPixelValid p) (startPixel p) (patchSizeValid p).

(** Lines 159-193: the chain of comparisons on [output.dtype()]; it has no
    final [else]. *)
Definition copyDispatch (output : Tensor) (pDataOut : Container) (p : Patch)
    : option Container :=
  if decide (dtype output = kInt8) then copyPatch int8_t output pDataOut p
  else if decide (dtype output = kUInt8) then copyPatch uint8_t output pDataOut p
  else if decide (dtype output = kInt16) then copyPatch int16_t output pDataOut p
  else if decide (dtype output = kInt32) then copyPatch int32_t output pDataOut p
  else if decide (dtype output = kInt64) then copyPatch int64_t output pDataOut p
  else if decide (dtype output = kFloat) then copyPatch float output pDataOut p
  else if decide (dtype output = kDouble) then copyPatch double output pDataOut p
  else Some pDataOut.

(** The template argument each branch of the chain passes on. *)
Definition modelOutputTypeOf (d : ScalarType) : option ModelOutputType :=
  match d with
  | kInt8 => Some int8_t
  | kUInt8 => Some uint8_t
  | kInt16 => Some int16_t
  | kInt32 => Some int32_t
  | kInt64 => Some int64_t
  | kFloat => Some float
  | kDouble => Some double
  | _ => None
  end.

(** How the loop of lines 70-194 ends. *)
Inductive LoopResult : Type :=
| Finished (pDataOut : Container)
| Thrown (e : Exception) (pDataOut : Container)
| Undefined
| OutOfFuel.

(** Lines 70-194: planning, model run and copy, patch after patch. *)
Fixpoint patchLoop (fuel : nat) (forward : Method)
    (numPixels inferencePatchSize inferencePatchOverlap : Z)
    (pDataOut : Container) (startPixelValid : Z) : LoopResult :=
  if startPixelValid <? numPixels then
    match fuel with
    | O => OutOfFuel
    | S fuel' =>
        let p := planPatch numPixels inferencePatchSize inferencePatchOverlap
                   startPixelValid in
        let lastValidPixels := patchSizeValid p in
        match runPatch forward p with
        | Throw e => Thrown e pDataOut
        | Ok output =>
            match copyDispatch output pDataOut p with
            | None => Undefined
            | Some pDataOut' =>
                patchLoop fuel' forward numPixels inferencePatchSize inferencePatchOverlap
                  pDataOut' (wrap64 (startPixelValid + lastValidPixels))
            end
        end
    end
  else Finished pDataOut.

(** Lines 197-207: what the two handlers log.  [logging::log_error]
    (utilities/Logging.h, outside of src/) is taken to add one line to the
    diagnostic log, made of its arguments in order. *)
Definition logException (e : Exception) : list string :=
  match e with
  | c10_Error what msg_stack =>
      [ "TorchInference: Error (c10::Error) while running model '"
          +:+ m_modelFilename self +:+ "'";
        "TorchInference: " +:+ what;
        "TorchInference: " +:+ msg_stack ]
  | std_runtime_error what =>
      [ "TorchInference: Error (std::runtime_error) while running model '"
          +:+ m_modelFilename self +:+ "'";
        "TorchInference: " +:+ what ]
  end.

(** [logging::log_error_if(cond, msg)]: the line is logged when [cond]
    holds. *)
Definition log_error_if (cond : bool) (msg : string) : list string :=
  if cond then [msg] else [].

Definition isNull {A : Type} (ptr : option A) : bool :=
  match ptr with
  | Some _ => false
  | None => true
  end.

(** Lines 211-216: the three [log_error_if] of the branch without model. *)
Definition logMissingModules : list string :=
  log_error_if (isNull (m_torchModule self))
    "TorchInference: Error no model loaded."
  ++ log_error_if (isNull (m_inputNormalizationModule self))
       "TorchInference: Error no normalization module present."
  ++ log_error_if (isNull (m_outputDenormalizationModule self))
       "TorchInference: Error no denormalization module present.".

(** How a call of [process] ends: a failed [assert] stops the program; the
    call returns [pDataOut] and leaves the lines it logged; or it ran
    into undefined behaviour or out of fuel. *)
Inductive Outcome : Type :=
| AssertionFailed (line : nat)
| Returned (pDataOut : option Container) (log : list string)
| UndefinedBehaviour
| NoExit.

(** [process].  [ndebug] tells whether the [assert]s are compiled out
    (NDEBUG).  The CUDA synchronisation and error polling of lines 51,
    124, 137, 143 and 195 and the asserts on tensor flags (lines 116,
    147) concern the device and are not modelled. *)
Definition process (ndebug : bool) (fuel : nat)
    (inferencePatchSize inferencePatchOverlap : Z) : Outcome :=
  if negb ndebug && isNull (m_torchModule self)
  then AssertionFailed 43
  else
    match m_torchModule self with
    | Some forward =>
        let inferencePatchSize :=
          effectivePatchSize inferencePatchSize (vec.x inputSize) in
        if negb ndebug
           && negb (patchSizeAssertion inferencePatchSize inferencePatchOverlap)
        then AssertionFailed 65
        else
          let numPixels := vec.x inputSize in
          let pDataOut := allocate outputSize in
          match patchLoop fuel forward numPixels inferencePatchSize
                  inferencePatchOverlap pDataOut 0 with
          | Finished pDataOut => Returned (Some pDataOut) []
          | Thrown e pDataOut => Returned (Some pDataOut) (logException e)
          | Undefined => UndefinedBehaviour
          | OutOfFuel => NoExit
          end
    | None => Returned None logMissingModules
    end.
End Process.

Arguments Tensor : clear implicits.
Arguments TorchInference : clear implicits.
Arguments Externals : clear implicits.
Arguments Container : clear implicits.
Arguments Outcome : clear implicits.
Arguments LoopResult : clear implicits.
Arguments Method : clear implicits.

End Inference.

(** ** A small configuration to run the model on

    Samples and cells are integers, the input holds its pixel index along
    the tiled axis, slicing shifts that index, and the other external steps
    return their argument. *)

Module Scenario.
Import Planner Reassembler Inference.

Definition ramp : Tensor Z := mkTensor kFloat (fun _ _ _ pixel => pixel).

Definition externals : Externals Z Z :=
  mkExternals
    (fun t _ start _ =>
       Ok (mkTensor (dtype t) (fun n s l p => accessor t n s l (p + start))))
    (fun t _ => Ok t)
    (fun t _ _ => Ok t)
    (fun _ _ v => v)
    (fun _ v => v).

(** A model that returns its input. *)
Definition identityModel : Method Z := fun t => Ok t.

(** A model whose [forward] throws on every patch that does not start at
    pixel 0. *)
Definition failingModel : Method Z := fun t =>
  if accessor t 0 0 0 0 =? 0 then Ok t
  else Throw (c10_Error "shape mismatch" "frame #0: forward").

(** A model whose output is a tensor of booleans. *)
Definition boolModel : Method Z := fun t => Ok (mkTensor kBool (accessor t)).

Definition loaded (forward : Method Z) : TorchInference Z :=
  mkTorchInference (Some forward) None None "model.pt".

Definition notLoaded : TorchInference Z :=
  mkTorchInference None None None "model.pt".

(** [process] on an axis of four pixels, one line, one slice, all layouts
    CDHW. *)
Definition run (self : TorchInference Z) (ndebug : bool)
    (inferencePatchSize inferencePatchOverlap : Z) : Outcome Z :=
  process self externals ramp (vec.mk 4 1 1) (vec.mk 4 1 1) "CDHW" "CDHW"
    TypeFloat TypeFloat "CDHW" "CDHW" ndebug 8 inferencePatchSize inferencePatchOverlap.
End Scenario.

(** ** Positions of the output volume

    Notions used to say where the samples of a patch end up. *)

Module Stitching.
Import Planner Reassembler.

(** The position lies inside the output volume. *)
Definition inVolume (outputSize : vec3s) (slice line pixel : Z) : Prop :=
  0 <= slice < vec.z outputSize
  /\ 0 <= line < vec.y outputSize
  /\ 0 <= pixel < vec.x outputSize.

(** The coordinate of a position along axis [a]. *)
Definition coordinate (a : Axis) (slice line pixel : Z) : Z :=
  match a with
  | SliceAxis => slice
  | LineAxis => line
  | PixelAxis => pixel
  end.

(** The sample of a patch output that belongs to an output position when
    axis [a] is the tiled one: along [a] the patch output is indexed from
    the start of the patch window. *)
Definition patchLocal {V : Type} (a : Axis) (startPixel : Z)
    (outAccessor : Z -> Z -> Z -> Z -> V) (slice line pixel : Z) : V :=
  match a with
  | SliceAxis => outAccessor 0 (slice - startPixel) line pixel
  | LineAxis => outAccessor 0 slice (line - startPixel) pixel
  | PixelAxis => outAccessor 0 slice line (pixel - startPixel)
  end.

End Stitching.

(** * Properties *)

(** ** Machine integers *)

Lemma wrap64_small z : 0 <= z < 2 ^ 64 -> wrap64 z = z.
Proof. intros H. unfold wrap64. apply Z.mod_small. exact H. Qed.

Lemma wrap32_small z : 0 <= z < 2 ^ 32 -> wrap32 z = z.
Proof. intros H. unfold wrap32. apply Z.mod_small. exact H. Qed.

Lemma wrap64_range z : 0 <= wrap64 z < 2 ^ 64.
Proof. unfold wrap64. apply Z.mod_pos_bound. lia. Qed.

Lemma wrap32_range z : 0 <= wrap32 z < 2 ^ 32.
Proof. unfold wrap32. apply Z.mod_pos_bound. lia. Qed.

(** ** The patch planner *)

Module PlannerSpec.
Import Planner.

Section Preconditions.
Variables numPixels inferencePatchSize inferencePatchOverlap : Z.
Hypothesis numPixels_size_t : 0 <= numPixels < 2 ^ 64.
Hypothesis overlap_nonneg : 0 <= inferencePatchOverlap.
Hypothesis patch_larger : 2 * inferencePatchOverlap < inferencePatchSize < 2 ^ 32.

Local Abbreviation plan := (planPatch numPixels inferencePatchSize inferencePatchOverlap).
Local Abbreviation reachable :=
  (cursorReachable numPixels inferencePatchSize inferencePatchOverlap).

(** The assertion of line 65 holds. *)
Lemma patchSizeAssertion_holds :
  patchSizeAssertion inferencePatchSize inferencePatchOverlap = true.
Proof.
  unfold patchSizeAssertion. rewrite wrap32_small by lia. apply Z.ltb_lt. lia.
Qed.

(** The four branches of the loop body, without wrap-around. *)
Lemma planPatch_first_only :
  0 < numPixels -> numPixels <= inferencePatchSize ->
  plan 0 = mkPatch 0 0 numPixels numPixels.
Proof.
  intros Hpos Hle. unfold planPatch. rewrite Z.sub_0_r, wrap64_small by lia.
  simpl. destruct (Z.leb_spec numPixels inferencePatchSize); [reflexivity | lia].
Qed.

Lemma planPatch_first :
  inferencePatchSize < numPixels ->
  plan 0 = mkPatch 0 0 inferencePatchSize (inferencePatchSize - inferencePatchOverlap).
Proof.
  intros Hlt. unfold planPatch. rewrite Z.sub_0_r, wrap64_small by lia.
  simpl. destruct (Z.leb_spec numPixels inferencePatchSize); [lia |].
  rewrite wrap64_small by lia. reflexivity.
Qed.

Lemma planPatch_last s :
  inferencePatchSize - inferencePatchOverlap <= s -> s < numPixels ->
  numPixels - s + inferencePatchOverlap <= inferencePatchSize ->
  plan s = mkPatch s (s - inferencePatchOverlap)
             (numPixels - s + inferencePatchOverlap) (numPixels - s).
Proof.
  intros Hge Hlt Hle. unfold planPatch.
  destruct (Z.eqb_spec s 0) as [-> | _]; [lia |]. simpl.
  rewrite (wrap64_small (s - inferencePatchOverlap)) by lia.
  rewrite (wrap64_small (numPixels - (s - inferencePatchOverlap))) by lia.
  destruct (Z.leb_spec (numPixels - (s - inferencePatchOverlap)) inferencePatchSize);
    [| lia].
  rewrite wrap64_small by lia. f_equal; lia.
Qed.

Lemma planPatch_middle s :
  inferencePatchSize - inferencePatchOverlap <= s -> s < numPixels ->
  inferencePatchSize < numPixels - s + inferencePatchOverlap ->
  plan s = mkPatch s (s - inferencePatchOverlap) inferencePatchSize
             (inferencePatchSize - 2 * inferencePatchOverlap).
Proof.
  intros Hge Hlt Hgt. unfold planPatch.
  destruct (Z.eqb_spec s 0) as [-> | _]; [lia |]. simpl.
  rewrite (wrap64_small (s - inferencePatchOverlap)) by lia.
  rewrite (wrap64_small (numPixels - (s - inferencePatchOverlap))) by lia.
  destruct (Z.leb_spec (numPixels - (s - inferencePatchOverlap)) inferencePatchSize);
    [lia |].
  rewrite wrap32_small by lia. rewrite wrap64_small by lia. reflexivity.
Qed.

(** At a reachable cursor below [numPixels] the body makes positive
    progress, the sum of line 71 does not wrap, and the next cursor is
    reachable and at most [numPixels]. *)
Lemma planPatch_progress s :
  reachable s -> 0 <= s < numPixels ->
  let p := plan s in
  startPixelValid p = s
  /\ 0 < patchSizeValid p
  /\ s + patchSizeValid p <= numPixels
  /\ (s + patchSizeValid p < numPixels -> reachable (s + patchSizeValid p)).
Proof.
  intros Hr Hs. unfold cursorReachable in *.
  destruct Hr as [-> | [Hge Hlong]].
  - destruct (Z.le_gt_cases numPixels inferencePatchSize) as [Hle | Hgt].
    + rewrite planPatch_first_only by lia. simpl. lia.
    + rewrite planPatch_first by lia. simpl. lia.
  - destruct (Z.le_gt_cases (numPixels - s + inferencePatchOverlap) inferencePatchSize)
      as [Hle | Hgt].
    + rewrite planPatch_last by lia. simpl. lia.
    + rewrite planPatch_middle by lia. simpl. lia.
Qed.

(** The loop exits, and what it emitted is a chain from the cursor to
    [numPixels]. *)
Lemma planLoop_chain fuel : forall s,
  (s < numPixels -> reachable s) -> 0 <= s <= numPixels ->
  (Z.to_nat (numPixels - s) <= fuel)%nat ->
  exists l,
    planLoop fuel numPixels inferencePatchSize inferencePatchOverlap s = Some l
    /\ chain numPixels inferencePatchSize inferencePatchOverlap s numPixels l.
Proof.
  induction fuel as [| fuel IH]; intros s Hr Hs Hfuel.
  - exists []. simpl. destruct (Z.ltb_spec s numPixels); [lia |].
    split; [reflexivity | simpl; lia].
  - simpl. destruct (Z.ltb_spec s numPixels) as [Hlt | Hge].
    + destruct (planPatch_progress s (Hr Hlt)) as (Hspv & Hpos & Hle & Hr'); [lia |].
      rewrite wrap64_small by lia.
      destruct (IH (s + patchSizeValid (plan s))) as (l & Hl & Hchain);
        [exact Hr' | lia | lia |].
      rewrite Hl. exists (plan s :: l). split; [reflexivity |].
      simpl. repeat split; try assumption; try lia. exact (Hr Hlt).
    + exists []. split; [reflexivity | simpl; lia].
Qed.

(** The patch window of an iteration contains its valid sub-window and is
    no longer than [inferencePatchSize]. *)
Lemma planPatch_window s :
  reachable s -> 0 <= s < numPixels ->
  let p := plan s in
  startPixel p <= startPixelValid p
  /\ startPixelValid p + patchSizeValid p <= startPixel p + patchSize p
  /\ patchSize p <= inferencePatchSize.
Proof.
  intros Hr Hs. unfold cursorReachable in *.
  destruct Hr as [-> | [Hge Hlong]].
  - destruct (Z.le_gt_cases numPixels inferencePatchSize) as [Hle | Hgt].
    + rewrite planPatch_first_only by lia. simpl. lia.
    + rewrite planPatch_first by lia. simpl. lia.
  - destruct (Z.le_gt_cases (numPixels - s + inferencePatchOverlap) inferencePatchSize)
      as [Hle | Hgt].
    + rewrite planPatch_last by lia. simpl. lia.
    + rewrite planPatch_middle by lia. simpl. lia.
Qed.

(** Past the first patch the subtraction of lines 91, 94 and 102 stays in
    range. *)
Lemma planPatch_subtraction s :
  reachable s -> 0 < s < numPixels ->
  inferencePatchSize - inferencePatchOverlap <= s
  /\ inferencePatchOverlap < inferencePatchSize - inferencePatchOverlap
  /\ wrap64 (s - inferencePatchOverlap) = s - inferencePatchOverlap
  /\ startPixel (plan s) = s - inferencePatchOverlap.
Proof.
  intros Hr Hs. unfold cursorReachable in *.
  destruct Hr as [-> | [Hge Hlong]]; [lia |].
  split; [lia |]. split; [lia |]. split; [apply wrap64_small; lia |].
  destruct (Z.le_gt_cases (numPixels - s + inferencePatchOverlap) inferencePatchSize)
    as [Hle | Hgt].
  - rewrite planPatch_last by lia. reflexivity.
  - rewrite planPatch_middle by lia. reflexivity.
Qed.
End Preconditions.

(** *** Consequences of a chain *)

Section Chain.
Variables numPixels inferencePatchSize inferencePatchOverlap : Z.

Local Abbreviation chainOf := (chain numPixels inferencePatchSize inferencePatchOverlap).

Lemma chain_le l : forall a b, chainOf a b l -> a <= b.
Proof.
  induction l as [| p l IH]; simpl; intros a b H.
  - lia.
  - destruct H as (_ & _ & _ & _ & Hpos & Hle & _). lia.
Qed.

Lemma chain_cover l : forall a b x,
  chainOf a b l ->
  coverCount x l = if decide (a <= x < b) then 1%nat else 0%nat.
Proof.
  unfold coverCount.
  induction l as [| p l IH]; simpl; intros a b x H.
  - subst b. destruct (decide (a <= x < a)); [lia | reflexivity].
  - destruct H as (_ & _ & _ & Hspv & Hpos & Hle & Hrest).
    pose proof (chain_le _ _ _ Hrest) as Hab.
    pose proof (IH _ _ x Hrest) as IHx.
    destruct (inValid x p) eqn:E; simpl; rewrite IHx;
      unfold inValid in E; rewrite Hspv in E;
      destruct (Z.leb_spec a x), (Z.ltb_spec x (a + patchSizeValid p));
      simpl in E; try discriminate;
      repeat case_decide; try reflexivity; lia.
Qed.

Lemma chain_lower l : forall a b,
  chainOf a b l -> Forall (fun p => a <= startPixelValid p) l.
Proof.
  induction l as [| p l IH]; simpl; intros a b H; constructor.
  - destruct H as (_ & _ & _ & Hspv & _). lia.
  - destruct H as (_ & _ & _ & _ & Hpos & _ & Hrest).
    eapply Forall_impl; [exact (IH _ _ Hrest) |]. simpl. intros q Hq. lia.
Qed.

Lemma chain_sorted l : forall a b,
  chainOf a b l -> StronglySorted Z.lt (startPixelValid <$> l).
Proof.
  induction l as [| p l IH]; simpl; intros a b H; constructor.
  - destruct H as (_ & _ & _ & _ & _ & _ & Hrest). exact (IH _ _ Hrest).
  - destruct H as (_ & _ & _ & Hspv & Hpos & _ & Hrest).
    apply Forall_fmap. eapply Forall_impl; [exact (chain_lower _ _ _ Hrest) |].
    simpl. intros q Hq. lia.
Qed.

Lemma chain_iterations l : forall a b,
  chainOf a b l ->
  Forall (fun p =>
            p = planPatch numPixels inferencePatchSize inferencePatchOverlap
                  (startPixelValid p)
            /\ cursorReachable numPixels inferencePatchSize inferencePatchOverlap
                 (startPixelValid p)
            /\ 0 <= startPixelValid p < numPixels
            /\ 0 < patchSizeValid p
            /\ startPixelValid p + patchSizeValid p <= b) l.
Proof.
  induction l as [| p l IH]; simpl; intros a b H; constructor.
  - destruct H as (Hp & Hr & Ha & Hspv & Hpos & Hle & _).
    rewrite Hspv. repeat split; try assumption; lia.
  - destruct H as (_ & _ & _ & _ & _ & _ & Hrest). exact (IH _ _ Hrest).
Qed.

Lemma chain_length l : forall a b,
  chainOf a b l -> (length l <= Z.to_nat (b - a))%nat.
Proof.
  induction l as [| p l IH]; simpl; intros a b H.
  - lia.
  - destruct H as (_ & _ & _ & _ & Hpos & Hle & Hrest).
    specialize (IH _ _ Hrest). pose proof (chain_le _ _ _ Hrest). lia.
Qed.

(** More fuel does not change what the loop emitted. *)
Lemma planLoop_fuel_mono fuel : forall fuel' s l,
  planLoop fuel numPixels inferencePatchSize inferencePatchOverlap s = Some l ->
  (fuel <= fuel')%nat ->
  planLoop fuel' numPixels inferencePatchSize inferencePatchOverlap s = Some l.
Proof.
  induction fuel as [| fuel IH]; intros fuel' s l H Hle.
  - simpl in H. destruct (s <? numPixels) eqn:E; [discriminate |].
    destruct fuel'; simpl; rewrite E; exact H.
  - destruct fuel' as [| fuel']; [lia |]. simpl in *.
    destruct (s <? numPixels); [| exact H].
    destruct (planLoop fuel _ _ _ _) as [l' |] eqn:E; [| discriminate].
    rewrite (IH fuel' _ l' E) by lia. exact H.
Qed.

(** At or past the end of the axis the loop exits at once. *)
Lemma planLoop_exit fuel s :
  numPixels <= s ->
  planLoop fuel numPixels inferencePatchSize inferencePatchOverlap s = Some [].
Proof.
  intros H. destruct fuel; simpl; destruct (Z.ltb_spec s numPixels); (reflexivity || lia).
Qed.
End Chain.

(** Under the precondition of line 65 the loop exits after at most
    [numPixels] iterations, with a chain from [0] to [numPixels]. *)
Lemma planLoop_total numPixels inferencePatchSize inferencePatchOverlap :
  0 <= numPixels < 2 ^ 64 ->
  0 <= inferencePatchOverlap ->
  2 * inferencePatchOverlap < inferencePatchSize < 2 ^ 32 ->
  exists l,
    (forall fuel, (Z.to_nat numPixels <= fuel)%nat ->
       planLoop fuel numPixels inferencePatchSize inferencePatchOverlap 0 = Some l)
    /\ chain numPixels inferencePatchSize inferencePatchOverlap 0 numPixels l.
Proof.
  intros HN HO HP.
  destruct (planLoop_chain numPixels inferencePatchSize inferencePatchOverlap
              HN HO HP (Z.to_nat numPixels) 0) as (l & Hl & Hchain).
  - intros _. left. reflexivity.
  - lia.
  - rewrite Z.sub_0_r. lia.
  - exists l. split; [| exact Hchain].
    intros fuel Hfuel. eapply planLoop_fuel_mono; eassumption.
Qed.

(** The check of line 65 multiplies in 32 bits, so it is weaker than
    [2 * inferencePatchOverlap < inferencePatchSize]: an overlap of [2^31]
    passes it with a patch size of 1, and the first patch then claims a
    valid length that wrapped around. *)
Remark patchSizeAssertion_product_wraps :
  patchSizeAssertion 1 2147483648 = true
  /\ planLoop 1 10 1 2147483648 0 = Some [mkPatch 0 0 1 18446744071562067969].
Proof. split; reflexivity. Qed.

(** *** The claims about the planner *)

(** C1: for every [numPixels > 0] and [inferencePatchSize > 2 *
    inferencePatchOverlap] the planning loop exits, every position of
    [0, numPixels) lies in exactly one emitted valid sub-window, no
    position outside of it lies in any, and the sub-windows are emitted in
    strictly increasing order of [startPixelValid]. *)
Theorem planner_valid_windows_tile_axis
    (numPixels inferencePatchSize inferencePatchOverlap : Z) :
  0 < numPixels < 2 ^ 64 ->
  0 <= inferencePatchOverlap ->
  2 * inferencePatchOverlap < inferencePatchSize < 2 ^ 32 ->
  exists l,
    (forall fuel, (Z.to_nat numPixels <= fuel)%nat ->
       planLoop fuel numPixels inferencePatchSize inferencePatchOverlap 0 = Some l)
    /\ (forall x, coverCount x l = if decide (0 <= x < numPixels) then 1%nat else 0%nat)
    /\ StronglySorted Z.lt (startPixelValid <$> l).
Proof.
  intros HN HO HP.
  destruct (planLoop_total numPixels inferencePatchSize inferencePatchOverlap)
    as (l & Hl & Hchain); [lia | lia | lia |].
  exists l. split; [exact Hl |]. split.
  - intros x. eapply chain_cover. exact Hchain.
  - eapply chain_sorted. exact Hchain.
Qed.

Lemma planner_valid_windows_tile_axis_witness :
  (0 < 10 < 2 ^ 64 /\ 0 <= 1 /\ 2 * 1 < 4 < 2 ^ 32)
  /\ exists l,
       (forall fuel, (Z.to_nat 10 <= fuel)%nat -> planLoop fuel 10 4 1 0 = Some l)
       /\ (forall x, coverCount x l = if decide (0 <= x < 10) then 1%nat else 0%nat)
       /\ StronglySorted Z.lt (startPixelValid <$> l).
Proof.
  split; [lia |]. apply (planner_valid_windows_tile_axis 10 4 1); lia.
Defined.

(** C3: under [inferencePatchSize > 2 * inferencePatchOverlap] the loop
    exits for every [numPixels], after at most [numPixels] iterations;
    every iteration runs with the cursor below [numPixels], computes a
    strictly positive [patchSizeValid] and advances the cursor by it
    without wrap-around; and at a cursor at or past [numPixels] the loop
    exits without another iteration. *)
Theorem planner_progress_and_termination
    (numPixels inferencePatchSize inferencePatchOverlap : Z) :
  0 <= numPixels < 2 ^ 64 ->
  0 <= inferencePatchOverlap ->
  2 * inferencePatchOverlap < inferencePatchSize < 2 ^ 32 ->
  exists l,
    (forall fuel, (Z.to_nat numPixels <= fuel)%nat ->
       planLoop fuel numPixels inferencePatchSize inferencePatchOverlap 0 = Some l)
    /\ Forall (fun p =>
                 startPixelValid p < numPixels
                 /\ 0 < patchSizeValid p
                 /\ startPixelValid p
                    < wrap64 (startPixelValid p + patchSizeValid p)) l
    /\ (length l <= Z.to_nat numPixels)%nat
    /\ (forall fuel s, numPixels <= s ->
          planLoop fuel numPixels inferencePatchSize inferencePatchOverlap s = Some []).
Proof.
  intros HN HO HP.
  destruct (planLoop_total numPixels inferencePatchSize inferencePatchOverlap)
    as (l & Hl & Hchain); [lia | lia | lia |].
  exists l. split; [exact Hl |]. split; [| split].
  - eapply Forall_impl; [exact (chain_iterations _ _ _ _ _ _ Hchain) |].
    simpl. intros p (_ & _ & Hs & Hpos & Hle).
    rewrite wrap64_small by lia. lia.
  - pose proof (chain_length _ _ _ _ _ _ Hchain) as Hlen.
    rewrite Z.sub_0_r in Hlen. exact Hlen.
  - intros fuel s Hs. apply planLoop_exit. exact Hs.
Qed.

Lemma planner_progress_and_termination_witness :
  (0 <= 10 < 2 ^ 64 /\ 0 <= 1 /\ 2 * 1 < 4 < 2 ^ 32)
  /\ exists l,
       (forall fuel, (Z.to_nat 10 <= fuel)%nat -> planLoop fuel 10 4 1 0 = Some l)
       /\ Forall (fun p =>
                    startPixelValid p < 10
                    /\ 0 < patchSizeValid p
                    /\ startPixelValid p
                       < wrap64 (startPixelValid p + patchSizeValid p)) l
       /\ (length l <= Z.to_nat 10)%nat
       /\ (forall fuel s, 10 <= s -> planLoop fuel 10 4 1 s = Some []).
Proof.
  split; [lia |]. apply (planner_progress_and_termination 10 4 1); lia.
Defined.

(** C4: under [inferencePatchSize > 2 * inferencePatchOverlap] every
    emitted pair has its valid sub-window
    [startPixelValid, startPixelValid + patchSizeValid) inside its patch
    window [startPixel, startPixel + patchSize), and [patchSize] is at most
    [inferencePatchSize]. *)
Theorem patch_window_contains_valid_window
    (numPixels inferencePatchSize inferencePatchOverlap : Z) :
  0 <= numPixels < 2 ^ 64 ->
  0 <= inferencePatchOverlap ->
  2 * inferencePatchOverlap < inferencePatchSize < 2 ^ 32 ->
  exists l,
    (forall fuel, (Z.to_nat numPixels <= fuel)%nat ->
       planLoop fuel numPixels inferencePatchSize inferencePatchOverlap 0 = Some l)
    /\ Forall (fun p =>
                 startPixel p <= startPixelValid p
                 /\ startPixelValid p + patchSizeValid p <= startPixel p + patchSize p
                 /\ patchSize p <= inferencePatchSize) l.
Proof.
  intros HN HO HP.
  destruct (planLoop_total numPixels inferencePatchSize inferencePatchOverlap)
    as (l & Hl & Hchain); [lia | lia | lia |].
  exists l. split; [exact Hl |].
  eapply Forall_impl; [exact (chain_iterations _ _ _ _ _ _ Hchain) |].
  simpl. intros p (Hp & Hr & Hs & _ & _). rewrite Hp.
  pose proof (planPatch_window numPixels inferencePatchSize inferencePatchOverlap
                HN HO HP (startPixelValid p) Hr Hs) as Hw.
  simpl in Hw. exact Hw.
Qed.

Lemma patch_window_contains_valid_window_witness :
  (0 <= 10 < 2 ^ 64 /\ 0 <= 1 /\ 2 * 1 < 4 < 2 ^ 32)
  /\ exists l,
       (forall fuel, (Z.to_nat 10 <= fuel)%nat -> planLoop fuel 10 4 1 0 = Some l)
       /\ Forall (fun p =>
                    startPixel p <= startPixelValid p
                    /\ startPixelValid p + patchSizeValid p <= startPixel p + patchSize p
                    /\ patchSize p <= 4) l.
Proof.
  split; [lia |]. apply (patch_window_contains_valid_window 10 4 1); lia.
Defined.

(** C10: under [inferencePatchSize > 2 * inferencePatchOverlap], every
    iteration that starts with [startPixelValid > 0] has
    [startPixelValid >= inferencePatchSize - inferencePatchOverlap >
    inferencePatchOverlap], so the [size_t] subtraction
    [startPixelValid - inferencePatchOverlap] does not wrap and is the
    [startPixel] the iteration computes. *)
Theorem planner_subtraction_never_wraps
    (numPixels inferencePatchSize inferencePatchOverlap : Z) :
  0 <= numPixels < 2 ^ 64 ->
  0 <= inferencePatchOverlap ->
  2 * inferencePatchOverlap < inferencePatchSize < 2 ^ 32 ->
  exists l,
    (forall fuel, (Z.to_nat numPixels <= fuel)%nat ->
       planLoop fuel numPixels inferencePatchSize inferencePatchOverlap 0 = Some l)
    /\ Forall (fun p =>
                 0 < startPixelValid p ->
                 inferencePatchSize - inferencePatchOverlap <= startPixelValid p
                 /\ inferencePatchOverlap < inferencePatchSize - inferencePatchOverlap
                 /\ wrap64 (startPixelValid p - inferencePatchOverlap)
                    = startPixelValid p - inferencePatchOverlap
                 /\ startPixel p = startPixelValid p - inferencePatchOverlap) l.
Proof.
  intros HN HO HP.
  destruct (planLoop_total numPixels inferencePatchSize inferencePatchOverlap)
    as (l & Hl & Hchain); [lia | lia | lia |].
  exists l. split; [exact Hl |].
  eapply Forall_impl; [exact (chain_iterations _ _ _ _ _ _ Hchain) |].
  simpl. intros p (Hp & Hr & Hs & _ & _) Hpos. rewrite Hp at 4.
  apply (planPatch_subtraction numPixels inferencePatchSize inferencePatchOverlap
           HN HO HP (startPixelValid p) Hr). lia.
Qed.

Lemma planner_subtraction_never_wraps_witness :
  (0 <= 10 < 2 ^ 64 /\ 0 <= 1 /\ 2 * 1 < 4 < 2 ^ 32)
  /\ exists l,
       (forall fuel, (Z.to_nat 10 <= fuel)%nat -> planLoop fuel 10 4 1 0 = Some l)
       /\ Forall (fun p =>
                    0 < startPixelValid p ->
                    4 - 1 <= startPixelValid p
                    /\ 1 < 4 - 1
                    /\ wrap64 (startPixelValid p - 1) = startPixelValid p - 1
                    /\ startPixel p = startPixelValid p - 1) l.
Proof.
  split; [lia |]. apply (planner_subtraction_never_wraps 10 4 1); lia.
Defined.

(** C6, as stated, fails: [inferencePatchSize] is a [uint32_t], so a zero
    patch size on an axis of [2^32 + 1] pixels becomes [1], not
    [numPixels], and the loop does not emit the single pair
    [0, numPixels). *)
Lemma zero_patch_size_wide_axis_counterexample :
  effectivePatchSize 0 4294967297 = 1
  /\ forall fuel,
       planLoop fuel 4294967297 (effectivePatchSize 0 4294967297) 0 0
       <> Some [mkPatch 0 0 4294967297 4294967297].
Proof.
  split; [reflexivity |].
  change (effectivePatchSize 0 4294967297) with 1.
  intros [| fuel] H.
  - discriminate H.
  - cbn [planLoop] in H.
    change (0 <? 4294967297) with true in H. cbv iota in H.
    change (planPatch 4294967297 1 0 0) with (mkPatch 0 0 1 1) in H.
    destruct (planLoop fuel _ _ _ _); discriminate H.
Qed.

(** C6, amended: a zero [inferencePatchSize] is replaced by [inputSize.x]
    converted to 32 bits; for [0 < numPixels < 2^32] that is [numPixels],
    and the loop then emits exactly one pair, whose patch window and valid
    sub-window are both [0, numPixels), whatever the overlap. *)
Theorem zero_patch_size_means_no_patching (numPixels inferencePatchOverlap : Z) :
  0 < numPixels < 2 ^ 32 ->
  effectivePatchSize 0 numPixels = numPixels
  /\ forall fuel, (1 <= fuel)%nat ->
       planLoop fuel numPixels (effectivePatchSize 0 numPixels) inferencePatchOverlap 0
       = Some [mkPatch 0 0 numPixels numPixels].
Proof.
  intros HN.
  assert (He : effectivePatchSize 0 numPixels = numPixels).
  { unfold effectivePatchSize. simpl. apply wrap32_small. lia. }
  split; [exact He |]. rewrite He.
  intros [| fuel] Hfuel; [lia |]. cbn [planLoop].
  destruct (Z.ltb_spec 0 numPixels); [| lia].
  assert (Hp : planPatch numPixels numPixels inferencePatchOverlap 0
               = mkPatch 0 0 numPixels numPixels).
  { unfold planPatch. rewrite Z.sub_0_r, wrap64_small by lia. simpl.
    destruct (Z.leb_spec numPixels numPixels); [reflexivity | lia]. }
  rewrite Hp. cbn [patchSizeValid]. rewrite Z.add_0_l, wrap64_small by lia.
  rewrite planLoop_exit by lia. reflexivity.
Qed.

Lemma zero_patch_size_means_no_patching_witness :
  0 < 5 < 2 ^ 32
  /\ effectivePatchSize 0 5 = 5
  /\ forall fuel, (1 <= fuel)%nat ->
       planLoop fuel 5 (effectivePatchSize 0 5) 1 0 = Some [mkPatch 0 0 5 5].
Proof.
  split; [lia |]. apply (zero_patch_size_means_no_patching 5 1). lia.
Defined.

End PlannerSpec.

(** ** The patch reassembler *)

Module ReassemblerSpec.
Import Reassembler.

(** *** Which axis is narrowed *)

Lemma patchRanges_tiledAxis permutation outputSize startPixelValid startPixel patchSizeValid :
  (4 <= length permutation)%nat ->
  exists r,
    patchRanges permutation outputSize startPixelValid startPixel patchSizeValid = Some r
    /\ match tiledAxis permutation with
       | Some a =>
           narrowedTo r a startPixelValid startPixel patchSizeValid
           /\ forall a', a' <> a -> fullExtent outputSize r a'
       | None => forall a, fullExtent outputSize r a
       end.
Proof.
  intros Hlen.
  destruct permutation as [| p0 [| p1 [| p2 [| p3 rest]]]]; simpl in Hlen; try lia.
  unfold patchRanges, tiledAxis. simpl.
  destruct (Z.eqb_spec p1 3) as [-> | Hp1].
  { rewrite decide_True by reflexivity. eexists. split; [reflexivity |].
    split; [repeat split |]. intros [] Hne; try congruence; repeat split. }
  rewrite decide_False by congruence.
  destruct (Z.eqb_spec p2 3) as [-> | Hp2].
  { rewrite decide_True by reflexivity. eexists. split; [reflexivity |].
    split; [repeat split |]. intros [] Hne; try congruence; repeat split. }
  rewrite decide_False by congruence.
  destruct (Z.eqb_spec p3 3) as [-> | Hp3].
  { rewrite decide_True by reflexivity. eexists. split; [reflexivity |].
    split; [repeat split |]. intros [] Hne; try congruence; repeat split. }
  rewrite decide_False by congruence.
  eexists. split; [reflexivity |]. intros []; repeat split.
Qed.

Lemma patchRanges_offsets permutation outputSize startPixelValid startPixel patchSizeValid r :
  patchRanges permutation outputSize startPixelValid startPixel patchSizeValid = Some r ->
  0 <= startPixel <= startPixelValid ->
  (0 <= outSliceOffset r <= outSliceStart r)
  /\ (0 <= outLineOffset r <= outLineStart r)
  /\ (0 <= outPixelOffset r <= outPixelStart r).
Proof.
  unfold patchRanges. intros H Hsp.
  destruct (permutation !! 1%nat) as [p1 |]; simpl in H; [| discriminate].
  destruct (p1 =? 3); [inversion H; subst; simpl; lia |].
  destruct (permutation !! 2%nat) as [p2 |]; simpl in H; [| discriminate].
  destruct (p2 =? 3); [inversion H; subst; simpl; lia |].
  destruct (permutation !! 3%nat) as [p3 |]; simpl in H; [| discriminate].
  destruct (p3 =? 3); inversion H; subst; simpl; lia.
Qed.

(** *** Row-major addresses *)

Lemma mixed_radix_inj a b a' b' c :
  0 <= b < c -> 0 <= b' < c -> a * c + b = a' * c + b' -> a = a' /\ b = b'.
Proof.
  intros Hb Hb' H. destruct (Z.lt_trichotomy a a') as [Hlt | [Heq | Hgt]]; nia.
Qed.

Lemma rowMajor_inj outputSize s l p s' l' p' :
  0 <= l < vec.y outputSize -> 0 <= l' < vec.y outputSize ->
  0 <= p < vec.x outputSize -> 0 <= p' < vec.x outputSize ->
  rowMajor outputSize s l p = rowMajor outputSize s' l' p' ->
  s = s' /\ l = l' /\ p = p'.
Proof.
  unfold rowMajor. intros Hl Hl' Hp Hp' H.
  destruct (mixed_radix_inj (s * vec.y outputSize + l) p (s' * vec.y outputSize + l') p'
              (vec.x outputSize) Hp Hp') as [H1 H2]; [lia |].
  destruct (mixed_radix_inj s l s' l' (vec.y outputSize) Hl Hl' H1) as [H3 H4].
  auto.
Qed.

Lemma rowMajor_range outputSize s l p :
  0 <= s < vec.z outputSize -> 0 <= l < vec.y outputSize -> 0 <= p < vec.x outputSize ->
  0 <= rowMajor outputSize s l p
       < vec.x outputSize * vec.y outputSize * vec.z outputSize.
Proof.
  unfold rowMajor. destruct outputSize as [X Y Z']. simpl. intros Hs Hl Hp.
  assert (0 <= s * Y + l < Z' * Y) by nia.
  assert (0 <= (s * Y + l) * X + p < Z' * Y * X) by nia.
  lia.
Qed.

(** Inside the volume the [size_t] address expression does not wrap. *)
Lemma outputAddress_rowMajor outputSize s l p :
  0 <= s < vec.z outputSize -> 0 <= l < vec.y outputSize -> 0 <= p < vec.x outputSize ->
  vec.x outputSize * vec.y outputSize * vec.z outputSize < 2 ^ 64 ->
  outputAddress outputSize s l p = rowMajor outputSize s l p.
Proof.
  intros Hs Hl Hp Hsize.
  pose proof (rowMajor_range outputSize s l p Hs Hl Hp) as Hr.
  unfold outputAddress, rowMajor in *. destruct outputSize as [X Y Z']. simpl in *.
  assert (0 <= s * Y) by nia.
  assert (0 <= s * Y * X) by nia.
  assert (0 <= l * X) by nia.
  assert (s * Y <= s * Y * X) by nia.
  rewrite (wrap64_small (s * Y)) by lia.
  rewrite (wrap64_small (s * Y * X)) by lia.
  rewrite (wrap64_small (l * X)) by lia.
  rewrite (wrap64_small (s * Y * X + l * X)) by lia.
  apply wrap64_small. lia.
Qed.

Lemma le_prod3 a b c :
  0 < a -> 0 < b -> 0 < c -> a <= a * b * c /\ b <= a * b * c /\ c <= a * b * c.
Proof.
  intros Ha Hb Hc.
  assert (1 <= a * b) by nia. assert (1 <= b * c) by nia. assert (1 <= a * c) by nia.
  replace (a * b * c) with (a * (b * c)) at 1 by ring.
  replace (a * b * c) with (b * (a * c)) at 2 by ring.
  repeat split; nia.
Qed.

Lemma toInt64_small d : 0 <= d < 2 ^ 63 -> toInt64 (wrap64 d) = d.
Proof.
  intros H. rewrite wrap64_small by lia. unfold toInt64.
  destruct (Z.ltb_spec d (2 ^ 63)); [reflexivity | lia].
Qed.

(** *** The copy loops *)

Section Copy.
Context {V T : Type}.
Variable clampCast : V -> T.
Variable outAccessor : Z -> Z -> Z -> Z -> V.

Lemma storeAll_app (ws1 ws2 : list (Z * T)) : forall buf,
  storeAll (ws1 ++ ws2) buf = storeAll ws1 buf ≫= storeAll ws2.
Proof.
  induction ws1 as [| [a v] ws1 IH]; intros buf; simpl; [reflexivity |].
  destruct (store buf a v) as [buf' |]; simpl; [apply IH | reflexivity].
Qed.

Lemma forEach_storeAll (body : Z -> list T -> option (list T))
    (writes : Z -> list (Z * T)) (l : list Z) :
  (forall i buf, body i buf = storeAll (writes i) buf) ->
  forall buf, forEach l body buf = storeAll (l ≫= writes) buf.
Proof.
  intros Hbody. induction l as [| i l IH]; intros buf; simpl; [reflexivity |].
  rewrite storeAll_app, Hbody.
  destruct (storeAll (writes i) buf) as [buf' |]; simpl; [apply IH | reflexivity].
Qed.

Lemma copyLoops_storeAll outputSize r buf :
  copyLoops clampCast outAccessor outputSize r buf
  = storeAll (patchWrites clampCast outAccessor outputSize r) buf.
Proof.
  unfold copyLoops, patchWrites, forRange.
  apply forEach_storeAll. intros s buf1.
  apply forEach_storeAll. intros l buf2.
  apply forEach_storeAll. intros p buf3.
  simpl. destruct (store buf3 _ _); reflexivity.
Qed.

Lemma elem_of_patchWrites outputSize r a v :
  (a, v) ∈ patchWrites clampCast outAccessor outputSize r
  <-> exists s l p,
        inRanges r s l p
        /\ a = outputAddress outputSize s l p
        /\ v = patchSample clampCast outAccessor r s l p.
Proof.
  unfold patchWrites, inRanges. split.
  - intros H.
    apply list_elem_of_bind in H as (s & H & Hs).
    apply list_elem_of_bind in H as (l & H & Hl).
    apply list_elem_of_bind in H as (p & H & Hp).
    apply list_elem_of_singleton in H. inversion H; subst.
    apply elem_of_seqZ in Hs, Hl, Hp.
    exists s, l, p. repeat split; lia.
  - intros (s & l & p & (Hs & Hl & Hp) & -> & ->).
    apply list_elem_of_bind. exists s. split; [| apply elem_of_seqZ; lia].
    apply list_elem_of_bind. exists l. split; [| apply elem_of_seqZ; lia].
    apply list_elem_of_bind. exists p. split; [| apply elem_of_seqZ; lia].
    apply list_elem_of_singleton. reflexivity.
Qed.

(** A sequence of in-bounds writes succeeds, keeps the length, leaves
    every cell alone that no write addresses, and, when no address gets
    two different values, leaves each written cell with its value. *)
Lemma storeAll_spec (ws : list (Z * T)) : forall buf,
  (forall a v, (a, v) ∈ ws -> 0 <= a < Z.of_nat (length buf)) ->
  exists buf',
    storeAll ws buf = Some buf'
    /\ length buf' = length buf
    /\ (forall i, (forall a v, (a, v) ∈ ws -> Z.to_nat a <> i) -> buf' !! i = buf !! i)
    /\ ((forall a v v', (a, v) ∈ ws -> (a, v') ∈ ws -> v = v') ->
        forall a v, (a, v) ∈ ws -> buf' !! Z.to_nat a = Some v).
Proof.
  induction ws as [| [a0 v0] ws IH]; intros buf Hin.
  - exists buf. simpl. repeat split; try reflexivity.
    intros _ a v H. apply elem_of_nil in H. contradiction.
  - assert (Ha0 : 0 <= a0 < Z.of_nat (length buf)).
    { apply (Hin a0 v0). apply elem_of_cons. left. reflexivity. }
    simpl. unfold store. rewrite decide_True by exact Ha0. simpl.
    destruct (IH (<[Z.to_nat a0 := v0]> buf)) as (buf' & Hrun & Hlen & Hother & Hwritten).
    { intros a v H. rewrite length_insert. apply (Hin a v).
      apply elem_of_cons. right. exact H. }
    exists buf'. split; [exact Hrun |]. split; [| split].
    + rewrite Hlen. apply length_insert.
    + intros i Hi. rewrite Hother.
      * apply list_lookup_insert_ne. apply (Hi a0 v0). apply elem_of_cons. left. reflexivity.
      * intros a v H. apply (Hi a v). apply elem_of_cons. right. exact H.
    + intros Hfun a v H. apply elem_of_cons in H as [Heq | H].
      * inversion Heq; subst a v.
        destruct (decide (a0 ∈ ws.*1)) as [Hdup | Hfresh].
        -- apply list_elem_of_fmap in Hdup as ([a1 v1] & Ha1 & Hmem). simpl in Ha1. subst a1.
           assert (v1 = v0) as ->.
           { apply (Hfun a0); apply elem_of_cons; [right; exact Hmem | left; reflexivity]. }
           apply Hwritten; [| exact Hmem].
           intros a v v' H1 H2. apply (Hfun a); apply elem_of_cons; right; assumption.
        -- rewrite Hother.
           ++ apply list_lookup_insert_eq. lia.
           ++ intros a v Hmem Heq'. apply Hfresh.
              assert (0 <= a) by (apply (Hin a v); apply elem_of_cons; right; exact Hmem).
              assert (a = a0) as -> by lia.
              apply list_elem_of_fmap. exists (a0, v). split; [reflexivity | exact Hmem].
      * apply Hwritten; [| exact H].
        intros a1 v1 v1' H1 H2. apply (Hfun a1); apply elem_of_cons; right; assumption.
Qed.
End Copy.

(** *** The claims about the reassembler *)

(** C7, as stated, fails: when the permutation holds 3 at position 0 (model
    output layout CDHW written to final layout WDHC) none of the three
    comparisons succeeds and no axis is narrowed. *)
Lemma no_axis_narrowed_counterexample :
  layoutPermutation "CDHW" "WDHC" = [3; 1; 2; 0]
  /\ exists r,
       patchRanges (layoutPermutation "CDHW" "WDHC") (vec.mk 10 10 10) 3 2 2 = Some r
       /\ forall a, fullExtent (vec.mk 10 10 10) r a /\ ~ narrowedTo r a 3 2 2.
Proof.
  split; [reflexivity |].
  eexists. split; [reflexivity |].
  intros a. split.
  - destruct a; repeat split.
  - intros (Hstart & _). destruct a; simpl in Hstart; discriminate Hstart.
Qed.

(** C7, amended: a call of [copyPatchToOutput] with a permutation of four
    entries narrows at most one axis, the one the comparisons select:
    slice when position 1 holds 3, else line when position 2 holds 3, else
    pixel when position 3 holds 3.  That axis runs over
    [startPixelValid, startPixelValid + patchSizeValid) with offset
    [startPixel], the other two keep full extent and zero offset.  When
    none of positions 1 to 3 holds 3, all three axes keep full extent and
    zero offset. *)
Theorem copy_narrows_selected_axis {V T : Type} (clampCast : V -> T)
    (outAccessor : Z -> Z -> Z -> Z -> V) (pDataOut : list T)
    (modelOutputLayout finalLayout : string) (outputSize : vec3s)
    (startPixelValid startPixel patchSizeValid : Z) :
  let permutation := layoutPermutation modelOutputLayout finalLayout in
  (4 <= length permutation)%nat ->
  exists r,
    patchRanges permutation outputSize startPixelValid startPixel patchSizeValid = Some r
    /\ copyPatchToOutput clampCast outAccessor pDataOut modelOutputLayout finalLayout
         outputSize startPixelValid startPixel patchSizeValid
       = copyLoops clampCast outAccessor outputSize r pDataOut
    /\ match tiledAxis permutation with
       | Some a =>
           narrowedTo r a startPixelValid startPixel patchSizeValid
           /\ forall a', a' <> a -> fullExtent outputSize r a'
       | None => forall a, fullExtent outputSize r a
       end.
Proof.
  intros permutation Hlen.
  destruct (patchRanges_tiledAxis permutation outputSize startPixelValid startPixel
              patchSizeValid Hlen) as (r & Hr & Haxis).
  exists r. split; [exact Hr |]. split; [| exact Haxis].
  unfold copyPatchToOutput. fold permutation. rewrite Hr. reflexivity.
Qed.

Lemma copy_narrows_selected_axis_witness :
  (4 <= length (layoutPermutation "CDHW" "CDHW"))%nat
  /\ exists r,
       patchRanges (layoutPermutation "CDHW" "CDHW") (vec.mk 4 2 1) 2 1 2 = Some r
       /\ copyPatchToOutput (fun v : Z => v) (fun _ s l p => 100 * s + 10 * l + p)
            [0; 0; 0; 0; 0; 0; 0; 0] "CDHW" "CDHW" (vec.mk 4 2 1) 2 1 2
          = copyLoops (fun v : Z => v) (fun _ s l p => 100 * s + 10 * l + p)
              (vec.mk 4 2 1) r [0; 0; 0; 0; 0; 0; 0; 0]
       /\ match tiledAxis (layoutPermutation "CDHW" "CDHW") with
          | Some a =>
              narrowedTo r a 2 1 2
              /\ forall a', a' <> a -> fullExtent (vec.mk 4 2 1) r a'
          | None => forall a, fullExtent (vec.mk 4 2 1) r a
          end.
Proof.
  split; [vm_compute; lia |].
  apply (copy_narrows_selected_axis (fun v : Z => v) (fun _ s l p => 100 * s + 10 * l + p)
           [0; 0; 0; 0; 0; 0; 0; 0] "CDHW" "CDHW" (vec.mk 4 2 1) 2 1 2).
  vm_compute. lia.
Defined.

(** C8: one call of [copyPatchToOutput] whose ranges lie inside the output
    volume held by the container writes, for every coordinate inside the
    three ranges, the cell at the row-major address
    [slice * outputSize.y * outputSize.x + line * outputSize.x + pixel]
    with the converted sample read from the model output at the coordinate
    minus the axis offsets, and leaves every other cell of the container
    as it was. *)
Theorem copy_writes_exactly_the_ranges {V T : Type} (clampCast : V -> T)
    (outAccessor : Z -> Z -> Z -> Z -> V) (pDataOut : list T)
    (modelOutputLayout finalLayout : string) (outputSize : vec3s)
    (startPixelValid startPixel patchSizeValid : Z) (r : Ranges) :
  patchRanges (layoutPermutation modelOutputLayout finalLayout) outputSize
    startPixelValid startPixel patchSizeValid = Some r ->
  0 <= startPixel <= startPixelValid ->
  outSliceEnd r <= vec.z outputSize ->
  outLineEnd r <= vec.y outputSize ->
  outPixelEnd r <= vec.x outputSize ->
  vec.x outputSize * vec.y outputSize * vec.z outputSize
    <= Z.of_nat (length pDataOut) < 2 ^ 63 ->
  exists pDataOut',
    copyPatchToOutput clampCast outAccessor pDataOut modelOutputLayout finalLayout
      outputSize startPixelValid startPixel patchSizeValid = Some pDataOut'
    /\ length pDataOut' = length pDataOut
    /\ (forall slice line pixel,
          inRanges r slice line pixel ->
          pDataOut' !! Z.to_nat (rowMajor outputSize slice line pixel)
          = Some (clampCast (outAccessor 0 (slice - outSliceOffset r)
                               (line - outLineOffset r) (pixel - outPixelOffset r))))
    /\ (forall i : nat,
          (forall slice line pixel,
             inRanges r slice line pixel ->
             i <> Z.to_nat (rowMajor outputSize slice line pixel)) ->
          pDataOut' !! i = pDataOut !! i).
Proof.
  intros Hr Hsp HendS HendL HendP Hsize.
  destruct (patchRanges_offsets _ _ _ _ _ _ Hr Hsp) as (HoffS & HoffL & HoffP).
  unfold copyPatchToOutput. rewrite Hr. simpl. rewrite copyLoops_storeAll.
  (* what holds of every coordinate inside the ranges *)
  assert (Hcoord : forall s l p, inRanges r s l p ->
            (0 <= s < vec.z outputSize /\ 0 <= l < vec.y outputSize
             /\ 0 <= p < vec.x outputSize)
            /\ outputAddress outputSize s l p = rowMajor outputSize s l p
            /\ 0 <= rowMajor outputSize s l p < Z.of_nat (length pDataOut)
            /\ patchSample clampCast outAccessor r s l p
               = clampCast (outAccessor 0 (s - outSliceOffset r)
                              (l - outLineOffset r) (p - outPixelOffset r))).
  { intros s l p (Hs & Hl & Hp).
    assert (Hin : 0 <= s < vec.z outputSize /\ 0 <= l < vec.y outputSize
                  /\ 0 <= p < vec.x outputSize) by lia.
    destruct Hin as (Hs' & Hl' & Hp').
    pose proof (rowMajor_range outputSize s l p Hs' Hl' Hp') as Hrange.
    split; [lia |]. split; [apply outputAddress_rowMajor; lia |]. split; [lia |].
    destruct (le_prod3 (vec.x outputSize) (vec.y outputSize) (vec.z outputSize))
      as (Hx & Hy & Hz); [lia | lia | lia |].
    unfold patchSample. rewrite !toInt64_small by lia. reflexivity. }
  destruct (storeAll_spec (patchWrites clampCast outAccessor outputSize r) pDataOut)
    as (buf' & Hrun & Hlen & Hother & Hwritten).
  { intros a v H. apply elem_of_patchWrites in H as (s & l & p & Hin & -> & _).
    destruct (Hcoord s l p Hin) as (_ & -> & Hb & _). exact Hb. }
  exists buf'. split; [exact Hrun |]. split; [exact Hlen |]. split.
  - intros s l p Hin. destruct (Hcoord s l p Hin) as (_ & Haddr & _ & Hval).
    rewrite <- Haddr, <- Hval. apply Hwritten.
    + intros a v v' H1 H2.
      apply elem_of_patchWrites in H1 as (s1 & l1 & p1 & Hin1 & Ha1 & ->).
      apply elem_of_patchWrites in H2 as (s2 & l2 & p2 & Hin2 & Ha2 & ->).
      destruct (Hcoord s1 l1 p1 Hin1) as ((_ & Hl1 & Hp1) & Haddr1 & _).
      destruct (Hcoord s2 l2 p2 Hin2) as ((_ & Hl2 & Hp2) & Haddr2 & _).
      destruct (rowMajor_inj outputSize s1 l1 p1 s2 l2 p2) as (-> & -> & ->);
        [assumption .. | congruence | reflexivity].
    + apply elem_of_patchWrites. exists s, l, p. auto.
  - intros i Hi. apply Hother. intros a v H.
    apply elem_of_patchWrites in H as (s & l & p & Hin & -> & _).
    destruct (Hcoord s l p Hin) as (_ & -> & _). intros Heq. exact (Hi s l p Hin (eq_sym Heq)).
Qed.

Lemma copy_writes_exactly_the_ranges_witness :
  let clampCast := fun v : Z => v in
  let outAccessor := fun _ s l p : Z => 100 * s + 10 * l + p in
  let pDataOut := [0; 0; 0; 0; 0; 0; 0; 0] in
  let outputSize := vec.mk 4 2 1 in
  let r := mkRanges 0 1 0 0 2 0 2 4 1 in
  (patchRanges (layoutPermutation "CDHW" "CDHW") outputSize 2 1 2 = Some r
   /\ 0 <= 1 <= 2
   /\ outSliceEnd r <= vec.z outputSize
   /\ outLineEnd r <= vec.y outputSize
   /\ outPixelEnd r <= vec.x outputSize
   /\ vec.x outputSize * vec.y outputSize * vec.z outputSize
      <= Z.of_nat (length pDataOut) < 2 ^ 63)
  /\ exists pDataOut',
       copyPatchToOutput clampCast outAccessor pDataOut "CDHW" "CDHW" outputSize 2 1 2
       = Some pDataOut'
       /\ length pDataOut' = length pDataOut
       /\ (forall slice line pixel,
             inRanges r slice line pixel ->
             pDataOut' !! Z.to_nat (rowMajor outputSize slice line pixel)
             = Some (clampCast (outAccessor 0 (slice - outSliceOffset r)
                                  (line - outLineOffset r) (pixel - outPixelOffset r))))
       /\ (forall i : nat,
             (forall slice line pixel,
                inRanges r slice line pixel ->
                i <> Z.to_nat (rowMajor outputSize slice line pixel)) ->
             pDataOut' !! i = pDataOut !! i).
Proof.
  intros clampCast outAccessor pDataOut outputSize r.
  split.
  - split; [reflexivity |]. simpl. lia.
  - apply (copy_writes_exactly_the_ranges clampCast outAccessor pDataOut "CDHW" "CDHW"
             outputSize 2 1 2 r); [reflexivity | lia | simpl; lia .. ].
Defined.

End ReassemblerSpec.

(** ** The inference call *)

Module InferenceSpec.
Import Planner Reassembler Inference.

Section Call.
Context {V T : Type}.
Variable self : TorchInference V.
Variable ext : Externals V T.
Variable inputData : Tensor V.
Variables inputSize outputSize : vec3s.
Variables currentLayout finalLayout : string.
Variables modelInputDataType modelOutputDataType : DataType.
Variables modelInputLayout modelOutputLayout : string.

Local Abbreviation call :=
  (process self ext inputData inputSize outputSize currentLayout finalLayout
     modelInputDataType modelOutputDataType modelInputLayout modelOutputLayout).
Local Abbreviation loop :=
  (patchLoop self ext inputData outputSize currentLayout finalLayout
     modelInputDataType modelOutputDataType modelInputLayout modelOutputLayout).
Local Abbreviation model :=
  (runPatch self ext inputData currentLayout finalLayout
     modelInputDataType modelOutputDataType modelInputLayout modelOutputLayout).
Local Abbreviation dispatch := (copyDispatch ext outputSize finalLayout modelOutputLayout).
Local Abbreviation copy := (copyPatch ext outputSize finalLayout modelOutputLayout).

(** The chain of comparisons is a dispatch on [modelOutputTypeOf]. *)
Lemma copyDispatch_cases output pDataOut p :
  dispatch output pDataOut p
  = match modelOutputTypeOf (dtype output) with
    | Some mt => copy mt output pDataOut p
    | None => Some pDataOut
    end.
Proof. unfold copyDispatch. destruct (dtype output); reflexivity. Qed.

Lemma modelOutputTypeOf_None d :
  modelOutputTypeOf d = None
  <-> d ∉ [kInt8; kUInt8; kInt16; kInt32; kInt64; kFloat; kDouble].
Proof.
  split.
  - intros H Hin.
    repeat (apply elem_of_cons in Hin as [-> | Hin]; [discriminate H |]).
    apply elem_of_nil in Hin. exact Hin.
  - intros H. destruct d; try reflexivity; exfalso; apply H;
      repeat (first [apply list_elem_of_here | apply list_elem_of_further]).
Qed.

(** With a model loaded, a call that returns hands back the container
    it allocated, also after a caught exception. *)
Lemma process_returns_allocated_container ndebug fuel inferencePatchSize
    inferencePatchOverlap forward pDataOut log :
  m_torchModule self = Some forward ->
  call ndebug fuel inferencePatchSize inferencePatchOverlap = Returned pDataOut log ->
  is_Some pDataOut.
Proof.
  intros Hm. unfold process. rewrite Hm. simpl. rewrite andb_false_r.
  destruct (negb ndebug && _); [discriminate |].
  destruct (patchLoop _ _ _ _ _ _ _ _ _ _ _ _ _ _ _ _ _); intros H; inversion H; eauto.
Qed.

(** C9: the copy is dispatched on the run-time element type of the model
    output over exactly int8, uint8, int16, int32, int64, float32 and
    float64; for a patch whose output has any other element type the
    chain copies nothing, and the iteration neither throws nor stops the
    loop: it continues at the next cursor with the container as it was. *)
Theorem unsupported_dtype_skips_patch (fuel : nat) (forward : Method V)
    (numPixels inferencePatchSize inferencePatchOverlap : Z)
    (pDataOut : Container T) (startPixelValid : Z) (output : Tensor V) :
  let p := planPatch numPixels inferencePatchSize inferencePatchOverlap startPixelValid in
  startPixelValid < numPixels ->
  model forward p = Ok output ->
  dtype output ∉ [kInt8; kUInt8; kInt16; kInt32; kInt64; kFloat; kDouble] ->
  (forall output' pDataOut' p',
     dispatch output' pDataOut' p'
     = match modelOutputTypeOf (dtype output') with
       | Some mt => copy mt output' pDataOut' p'
       | None => Some pDataOut'
       end)
  /\ (forall d, modelOutputTypeOf d = None
                <-> d ∉ [kInt8; kUInt8; kInt16; kInt32; kInt64; kFloat; kDouble])
  /\ dispatch output pDataOut p = Some pDataOut
  /\ loop (S fuel) forward numPixels inferencePatchSize inferencePatchOverlap
       pDataOut startPixelValid
     = loop fuel forward numPixels inferencePatchSize inferencePatchOverlap
         pDataOut (wrap64 (startPixelValid + patchSizeValid p)).
Proof.
  intros p Hlt Hrun Hdtype.
  apply modelOutputTypeOf_None in Hdtype.
  assert (Hskip : dispatch output pDataOut p = Some pDataOut).
  { rewrite copyDispatch_cases, Hdtype. reflexivity. }
  split; [apply copyDispatch_cases |]. split; [apply modelOutputTypeOf_None |].
  split; [exact Hskip |].
  cbn [patchLoop]. destruct (Z.ltb_spec startPixelValid numPixels); [| lia].
  fold p. rewrite Hrun, Hskip. reflexivity.
Qed.

(** C5, amended: when no model is loaded and the assertions are compiled
    out (NDEBUG), [process] returns a null pointer, no container is
    allocated or written, and "TorchInference: Error no model loaded."
    is logged first; no exception is involved.  With the assertions
    compiled in, the assertion of line 43 fails instead. *)
Theorem no_model_returns_null (ndebug : bool) (fuel : nat)
    (inferencePatchSize inferencePatchOverlap : Z) :
  m_torchModule self = None ->
  call ndebug fuel inferencePatchSize inferencePatchOverlap
  = (if ndebug then Returned None (logMissingModules self) else AssertionFailed 43)
  /\ exists rest,
       logMissingModules self = "TorchInference: Error no model loaded." :: rest.
Proof.
  intros Hm. split.
  - unfold process. rewrite Hm. destruct ndebug; reflexivity.
  - unfold logMissingModules. rewrite Hm. simpl. eexists. reflexivity.
Qed.
End Call.

Import Scenario.

Lemma unsupported_dtype_skips_patch_witness :
  let self := loaded boolModel in
  let output := mkTensor kBool (fun _ _ _ pixel : Z => pixel + 0) in
  let pDataOut : Container Z := [None; None; None; None] in
  let p := planPatch 4 3 1 0 in
  (0 < 4
   /\ runPatch self externals ramp "CDHW" "CDHW" TypeFloat TypeFloat "CDHW" "CDHW"
        boolModel p = Ok output
   /\ dtype output ∉ [kInt8; kUInt8; kInt16; kInt32; kInt64; kFloat; kDouble])
  /\ copyDispatch externals (vec.mk 4 1 1) "CDHW" "CDHW" output pDataOut p = Some pDataOut
  /\ patchLoop self externals ramp (vec.mk 4 1 1) "CDHW" "CDHW" TypeFloat TypeFloat
       "CDHW" "CDHW" 3 boolModel 4 3 1 pDataOut 0
     = patchLoop self externals ramp (vec.mk 4 1 1) "CDHW" "CDHW" TypeFloat TypeFloat
         "CDHW" "CDHW" 2 boolModel 4 3 1 pDataOut (wrap64 (0 + patchSizeValid p)).
Proof.
  intros self output pDataOut p.
  assert (Hrun : runPatch self externals ramp "CDHW" "CDHW" TypeFloat TypeFloat
                   "CDHW" "CDHW" boolModel p = Ok output) by reflexivity.
  assert (Hdtype : dtype output ∉ [kInt8; kUInt8; kInt16; kInt32; kInt64; kFloat; kDouble]).
  { apply (bool_decide_unpack _). vm_compute. exact I. }
  split; [split; [lia | split; [exact Hrun | exact Hdtype]] |].
  destruct (unsupported_dtype_skips_patch self externals ramp (vec.mk 4 1 1)
              "CDHW" "CDHW" TypeFloat TypeFloat "CDHW" "CDHW"
              2 boolModel 4 3 1 pDataOut 0 output)
    as (_ & _ & Hskip & Hnext); [lia | exact Hrun | exact Hdtype |].
  split; [exact Hskip | exact Hnext].
Defined.

(** C5, as stated, fails: with the assertions compiled in, a call without
    a loaded model stops at the assertion of line 43; it does not return,
    and nothing is logged. *)
Lemma no_model_assertion_counterexample :
  run notLoaded false 3 1 = AssertionFailed 43
  /\ forall log, run notLoaded false 3 1 <> Returned None log.
Proof.
  split; [reflexivity |]. intros log H. discriminate H.
Qed.

Lemma no_model_returns_null_witness :
  m_torchModule notLoaded = None
  /\ run notLoaded true 3 1 = Returned None (logMissingModules notLoaded)
  /\ exists rest,
       logMissingModules notLoaded = "TorchInference: Error no model loaded." :: rest.
Proof.
  split; [reflexivity |].
  apply (no_model_returns_null notLoaded externals ramp (vec.mk 4 1 1) (vec.mk 4 1 1)
           "CDHW" "CDHW" TypeFloat TypeFloat "CDHW" "CDHW" true 8 3 1).
  reflexivity.
Defined.

(** C2: the claim says that a call whose model execution throws returns no
    result.  On an axis of four pixels with patches of three and overlap
    one, a [forward] that throws on the second patch makes [process] log
    the model file name and the diagnostic texts and then return the
    container it had allocated, with the cells of the first patch written
    and the others never written. *)
Theorem exception_returns_partial_container (ndebug : bool) :
  run (loaded failingModel) ndebug 3 1
  = Returned (Some [Some 0; Some 1; None; None])
      [ "TorchInference: Error (c10::Error) while running model 'model.pt'";
        "TorchInference: shape mismatch";
        "TorchInference: frame #0: forward" ].
Proof. destruct ndebug; vm_compute; reflexivity. Qed.

End InferenceSpec.


(** ** More about the planning loop *)

Module PlannerExtra.
Import Planner PlannerSpec.

Section Preconditions.
Variables numPixels inferencePatchSize inferencePatchOverlap : Z.
Hypothesis numPixels_size_t : 0 <= numPixels < 2 ^ 64.
Hypothesis overlap_nonneg : 0 <= inferencePatchOverlap.
Hypothesis patch_larger : 2 * inferencePatchOverlap < inferencePatchSize < 2 ^ 32.

Local Abbreviation plan := (planPatch numPixels inferencePatchSize inferencePatchOverlap).
Local Abbreviation reachable :=
  (cursorReachable numPixels inferencePatchSize inferencePatchOverlap).

(** Which branch of the loop body runs at a reachable cursor, and what it
    computes. *)
Lemma planPatch_cases s :
  reachable s -> 0 <= s < numPixels ->
  (s = 0 /\ numPixels <= inferencePatchSize
   /\ plan s = mkPatch 0 0 numPixels numPixels)
  \/ (s = 0 /\ inferencePatchSize < numPixels
      /\ plan s = mkPatch 0 0 inferencePatchSize
                    (inferencePatchSize - inferencePatchOverlap))
  \/ (inferencePatchSize - inferencePatchOverlap <= s
      /\ numPixels - s + inferencePatchOverlap <= inferencePatchSize
      /\ plan s = mkPatch s (s - inferencePatchOverlap)
                    (numPixels - s + inferencePatchOverlap) (numPixels - s))
  \/ (inferencePatchSize - inferencePatchOverlap <= s
      /\ inferencePatchSize < numPixels - s + inferencePatchOverlap
      /\ plan s = mkPatch s (s - inferencePatchOverlap) inferencePatchSize
                    (inferencePatchSize - 2 * inferencePatchOverlap)).
Proof.
  intros Hr Hs. unfold cursorReachable in Hr.
  destruct Hr as [-> | [Hge Hlong]].
  - destruct (Z.le_gt_cases numPixels inferencePatchSize) as [Hle | Hgt].
    + left. split; [reflexivity |]. split; [exact Hle |].
      apply planPatch_first_only; lia.
    + right. left. split; [reflexivity |]. split; [lia |].
      apply planPatch_first; lia.
  - destruct (Z.le_gt_cases (numPixels - s + inferencePatchOverlap) inferencePatchSize)
      as [Hle | Hgt].
    + right. right. left. split; [exact Hge |]. split; [exact Hle |].
      apply planPatch_last; lia.
    + right. right. right. split; [exact Hge |]. split; [lia |].
      apply planPatch_middle; lia.
Qed.

(** What holds of the loop body at every reachable cursor holds of every
    patch the loop emits. *)
Lemma planLoop_Forall (Q : Patch -> Prop) :
  (forall s, reachable s -> 0 <= s < numPixels -> Q (plan s)) ->
  exists l,
    (forall fuel, (Z.to_nat numPixels <= fuel)%nat ->
       planLoop fuel numPixels inferencePatchSize inferencePatchOverlap 0 = Some l)
    /\ Forall Q l.
Proof.
  intros HQ.
  destruct (planLoop_total numPixels inferencePatchSize inferencePatchOverlap)
    as (l & Hl & Hchain); [lia | lia | lia |].
  exists l. split; [exact Hl |].
  eapply Forall_impl; [exact (chain_iterations _ _ _ _ _ _ Hchain) |].
  simpl. intros p (Hp & Hr & Hs & _). rewrite Hp. apply HQ; assumption.
Qed.

(** All patches of a chain but the last one advance the cursor by at least
    [inferencePatchSize - 2 * inferencePatchOverlap]. *)
Lemma chain_count l : forall c,
  chain numPixels inferencePatchSize inferencePatchOverlap c numPixels l ->
  l <> [] ->
  (Z.of_nat (length l) - 1) * (inferencePatchSize - 2 * inferencePatchOverlap)
  <= numPixels - c - 1.
Proof.
  induction l as [| q l IH]; intros c Hchain Hne; [congruence |].
  simpl in Hchain. destruct Hchain as (Hq & Hr & Hc & _ & Hpos & Hle & Hrest).
  destruct l as [| q' l'].
  - simpl. lia.
  - assert (Hnext : c + patchSizeValid q < numPixels).
    { simpl in Hrest. lia. }
    assert (Hstep : inferencePatchSize - 2 * inferencePatchOverlap <= patchSizeValid q).
    { destruct (planPatch_cases c Hr Hc)
        as [(? & ? & Hp) | [(? & ? & Hp) | [(? & ? & Hp) | (? & ? & Hp)]]];
        rewrite <- Hq in Hp; rewrite Hp in Hnext |- *; simpl in *; lia. }
    specialize (IH _ Hrest ltac:(discriminate)).
    change (length (q :: q' :: l')) with (S (length (q' :: l'))).
    rewrite Nat2Z.inj_succ. nia.
Qed.
End Preconditions.

(** X1: every patch window lies inside the axis, so the slice of line 109 is
    taken inside the input: [0 <= startPixel], the window is not empty, and
    [startPixel + patchSize], computed without wrap-around, is at most
    [numPixels]. *)
Theorem patch_windows_inside_axis (numPixels inferencePatchSize inferencePatchOverlap : Z) :
  0 <= numPixels < 2 ^ 64 ->
  0 <= inferencePatchOverlap ->
  2 * inferencePatchOverlap < inferencePatchSize < 2 ^ 32 ->
  exists l,
    (forall fuel, (Z.to_nat numPixels <= fuel)%nat ->
       planLoop fuel numPixels inferencePatchSize inferencePatchOverlap 0 = Some l)
    /\ Forall (fun p =>
                 0 <= startPixel p
                 /\ 0 < patchSize p
                 /\ wrap64 (startPixel p + patchSize p) = startPixel p + patchSize p
                 /\ startPixel p + patchSize p <= numPixels) l.
Proof.
  intros HN HO HP. apply planLoop_Forall; try assumption.
  intros s Hr Hs.
  destruct (planPatch_cases numPixels inferencePatchSize inferencePatchOverlap
              HN HO HP s Hr Hs)
    as [(? & ? & ->) | [(? & ? & ->) | [(? & ? & ->) | (? & ? & ->)]]];
    simpl; rewrite wrap64_small by lia; lia.
Qed.

Lemma patch_windows_inside_axis_witness :
  (0 <= 10 < 2 ^ 64 /\ 0 <= 1 /\ 2 * 1 < 4 < 2 ^ 32)
  /\ exists l,
       (forall fuel, (Z.to_nat 10 <= fuel)%nat -> planLoop fuel 10 4 1 0 = Some l)
       /\ Forall (fun p =>
                    0 <= startPixel p
                    /\ 0 < patchSize p
                    /\ wrap64 (startPixel p + patchSize p) = startPixel p + patchSize p
                    /\ startPixel p + patchSize p <= 10) l.
Proof.
  split; [lia |]. apply (patch_windows_inside_axis 10 4 1); lia.
Defined.

(** X2: a patch window is padded by exactly [inferencePatchOverlap] on each
    side on which the axis continues, and not at all at the two ends of the
    axis: it starts at [startPixelValid - inferencePatchOverlap] unless the
    valid sub-window starts at 0, and it ends [inferencePatchOverlap] after
    the valid sub-window unless that one ends at [numPixels]. *)
Theorem patch_padding_is_the_overlap (numPixels inferencePatchSize inferencePatchOverlap : Z) :
  0 <= numPixels < 2 ^ 64 ->
  0 <= inferencePatchOverlap ->
  2 * inferencePatchOverlap < inferencePatchSize < 2 ^ 32 ->
  exists l,
    (forall fuel, (Z.to_nat numPixels <= fuel)%nat ->
       planLoop fuel numPixels inferencePatchSize inferencePatchOverlap 0 = Some l)
    /\ Forall (fun p =>
                 (startPixelValid p = 0 -> startPixel p = 0)
                 /\ (0 < startPixelValid p ->
                     startPixel p = startPixelValid p - inferencePatchOverlap)
                 /\ (startPixelValid p + patchSizeValid p < numPixels ->
                     startPixel p + patchSize p
                     = startPixelValid p + patchSizeValid p + inferencePatchOverlap)
                 /\ (startPixelValid p + patchSizeValid p = numPixels ->
                     startPixel p + patchSize p = numPixels)) l.
Proof.
  intros HN HO HP. apply planLoop_Forall; try assumption.
  intros s Hr Hs.
  destruct (planPatch_cases numPixels inferencePatchSize inferencePatchOverlap
              HN HO HP s Hr Hs)
    as [(? & ? & ->) | [(? & ? & ->) | [(? & ? & ->) | (? & ? & ->)]]];
    simpl; lia.
Qed.

Lemma patch_padding_is_the_overlap_witness :
  (0 <= 10 < 2 ^ 64 /\ 0 <= 1 /\ 2 * 1 < 4 < 2 ^ 32)
  /\ exists l,
       (forall fuel, (Z.to_nat 10 <= fuel)%nat -> planLoop fuel 10 4 1 0 = Some l)
       /\ Forall (fun p =>
                    (startPixelValid p = 0 -> startPixel p = 0)
                    /\ (0 < startPixelValid p -> startPixel p = startPixelValid p - 1)
                    /\ (startPixelValid p + patchSizeValid p < 10 ->
                        startPixel p + patchSize p
                        = startPixelValid p + patchSizeValid p + 1)
                    /\ (startPixelValid p + patchSizeValid p = 10 ->
                        startPixel p + patchSize p = 10)) l.
Proof.
  split; [lia |]. apply (patch_padding_is_the_overlap 10 4 1); lia.
Defined.

(** X3: the number of patches, and so of model runs, is bounded: all patches
    but the last advance by at least
    [inferencePatchSize - 2 * inferencePatchOverlap], hence
    [(n - 1) * (inferencePatchSize - 2 * inferencePatchOverlap) <= numPixels - 1]
    for the number [n] of patches of a non-empty axis. *)
Theorem patch_count_bound (numPixels inferencePatchSize inferencePatchOverlap : Z) :
  0 < numPixels < 2 ^ 64 ->
  0 <= inferencePatchOverlap ->
  2 * inferencePatchOverlap < inferencePatchSize < 2 ^ 32 ->
  exists l,
    (forall fuel, (Z.to_nat numPixels <= fuel)%nat ->
       planLoop fuel numPixels inferencePatchSize inferencePatchOverlap 0 = Some l)
    /\ (1 <= length l)%nat
    /\ (Z.of_nat (length l) - 1) * (inferencePatchSize - 2 * inferencePatchOverlap)
       <= numPixels - 1.
Proof.
  intros HN HO HP.
  destruct (planLoop_total numPixels inferencePatchSize inferencePatchOverlap)
    as (l & Hl & Hchain); [lia | lia | lia |].
  exists l. split; [exact Hl |].
  assert (Hne : l <> []).
  { intros ->. simpl in Hchain. lia. }
  split.
  - destruct l; [congruence | simpl; lia].
  - pose proof (chain_count numPixels inferencePatchSize inferencePatchOverlap
                  ltac:(lia) HO HP l 0 Hchain Hne) as Hc.
    lia.
Qed.

Lemma patch_count_bound_witness :
  (0 < 10 < 2 ^ 64 /\ 0 <= 1 /\ 2 * 1 < 4 < 2 ^ 32)
  /\ exists l,
       (forall fuel, (Z.to_nat 10 <= fuel)%nat -> planLoop fuel 10 4 1 0 = Some l)
       /\ (1 <= length l)%nat
       /\ (Z.of_nat (length l) - 1) * (4 - 2 * 1) <= 10 - 1.
Proof.
  split; [lia |]. apply (patch_count_bound 10 4 1); lia.
Defined.

(** With [inferencePatchSize = 2 * inferencePatchOverlap] the middle branch
    computes a valid length of zero, and the cursor stays at
    [inferencePatchOverlap]. *)
Lemma planLoop_stuck
    (numPixels inferencePatchOverlap : Z) (fuel : nat) :
  0 < inferencePatchOverlap ->
  2 * inferencePatchOverlap < 2 ^ 32 ->
  2 * inferencePatchOverlap < numPixels < 2 ^ 64 ->
  planLoop fuel numPixels (2 * inferencePatchOverlap) inferencePatchOverlap 0 = None.
Proof.
  intros HO HP HN.
  assert (Hstuck : forall f,
            planLoop f numPixels (2 * inferencePatchOverlap) inferencePatchOverlap
              inferencePatchOverlap = None).
  { induction f as [| f IH]; cbn [planLoop];
      (destruct (Z.ltb_spec inferencePatchOverlap numPixels); [| lia]);
      [reflexivity |].
    assert (Hp : planPatch numPixels (2 * inferencePatchOverlap) inferencePatchOverlap
                   inferencePatchOverlap
                 = mkPatch inferencePatchOverlap 0 (2 * inferencePatchOverlap) 0).
    { unfold planPatch.
      destruct (Z.eqb_spec inferencePatchOverlap 0); [lia |]. simpl.
      rewrite Z.sub_diag, (wrap64_small 0), Z.sub_0_r, (wrap64_small numPixels) by lia.
      destruct (Z.leb_spec numPixels (2 * inferencePatchOverlap)); [lia |].
      rewrite wrap32_small, Z.sub_diag by lia. reflexivity. }
    rewrite Hp. cbn [patchSizeValid]. rewrite Z.add_0_r, wrap64_small by lia.
    rewrite IH. reflexivity. }
  destruct fuel as [| fuel]; cbn [planLoop];
    (destruct (Z.ltb_spec 0 numPixels); [| lia]); [reflexivity |].
  assert (Hp : planPatch numPixels (2 * inferencePatchOverlap) inferencePatchOverlap 0
               = mkPatch 0 0 (2 * inferencePatchOverlap) inferencePatchOverlap).
  { unfold planPatch. rewrite Z.sub_0_r, wrap64_small by lia. simpl.
    destruct (Z.leb_spec numPixels (2 * inferencePatchOverlap)); [lia |].
    rewrite wrap64_small by lia. f_equal. lia. }
  rewrite Hp. cbn [patchSizeValid]. rewrite Z.add_0_l, wrap64_small by lia.
  rewrite Hstuck. reflexivity.
Qed.

(** X4: with [inferencePatchSize = 2 * inferencePatchOverlap > 0] on an axis
    longer than one patch the loop never exits: after the first patch every
    iteration computes [patchSizeValid = 0] and leaves the cursor at
    [inferencePatchOverlap]. *)
Theorem equal_patch_and_double_overlap_never_exits
    (numPixels inferencePatchOverlap : Z) (fuel : nat) :
  0 < inferencePatchOverlap ->
  2 * inferencePatchOverlap < 2 ^ 32 ->
  2 * inferencePatchOverlap < numPixels < 2 ^ 64 ->
  planLoop fuel numPixels (2 * inferencePatchOverlap) inferencePatchOverlap 0 = None.
Proof.
  intros HO HP HN. apply planLoop_stuck; assumption.
Qed.

Lemma equal_patch_and_double_overlap_never_exits_witness :
  (0 < 1 /\ 2 * 1 < 2 ^ 32 /\ 2 * 1 < 10 < 2 ^ 64)
  /\ planLoop 1000 10 (2 * 1) 1 0 = None.
Proof.
  split; [lia |]. apply (equal_patch_and_double_overlap_never_exits 10 1 1000); lia.
Defined.

(** X5: an axis that fits into one patch is planned as one patch that is its
    own valid sub-window, whatever the overlap (also one that violates the
    check of line 65). *)
Theorem short_axis_is_one_patch (numPixels inferencePatchSize inferencePatchOverlap : Z)
    (fuel : nat) :
  0 < numPixels < 2 ^ 64 ->
  numPixels <= inferencePatchSize ->
  (1 <= fuel)%nat ->
  planLoop fuel numPixels inferencePatchSize inferencePatchOverlap 0
  = Some [mkPatch 0 0 numPixels numPixels].
Proof.
  intros HN HP Hfuel. destruct fuel as [| fuel]; [lia |]. cbn [planLoop].
  destruct (Z.ltb_spec 0 numPixels); [| lia].
  rewrite (planPatch_first_only numPixels inferencePatchSize inferencePatchOverlap)
    by lia.
  cbn [patchSizeValid]. rewrite Z.add_0_l, wrap64_small by lia.
  rewrite planLoop_exit by lia. reflexivity.
Qed.

Lemma short_axis_is_one_patch_witness :
  (0 < 5 < 2 ^ 64 /\ 5 <= 8 /\ (1 <= 3)%nat)
  /\ planLoop 3 5 8 6 0 = Some [mkPatch 0 0 5 5].
Proof.
  split; [lia |]. apply (short_axis_is_one_patch 5 8 6 3); lia.
Defined.

(** X6: without overlap the patches abut: every patch window is its own valid
    sub-window, and every patch that does not end the axis has exactly
    [inferencePatchSize] pixels. *)
Theorem zero_overlap_patches_abut (numPixels inferencePatchSize : Z) :
  0 <= numPixels < 2 ^ 64 ->
  0 < inferencePatchSize < 2 ^ 32 ->
  exists l,
    (forall fuel, (Z.to_nat numPixels <= fuel)%nat ->
       planLoop fuel numPixels inferencePatchSize 0 0 = Some l)
    /\ Forall (fun p =>
                 startPixel p = startPixelValid p
                 /\ patchSize p = patchSizeValid p
                 /\ (startPixelValid p + patchSizeValid p < numPixels ->
                     patchSize p = inferencePatchSize)) l.
Proof.
  intros HN HP. apply planLoop_Forall; try lia.
  intros s Hr Hs.
  destruct (planPatch_cases numPixels inferencePatchSize 0
              HN ltac:(lia) ltac:(lia) s Hr Hs)
    as [(? & ? & ->) | [(? & ? & ->) | [(? & ? & ->) | (? & ? & ->)]]];
    simpl; lia.
Qed.

Lemma zero_overlap_patches_abut_witness :
  (0 <= 7 < 2 ^ 64 /\ 0 < 3 < 2 ^ 32)
  /\ exists l,
       (forall fuel, (Z.to_nat 7 <= fuel)%nat -> planLoop fuel 7 3 0 0 = Some l)
       /\ Forall (fun p =>
                    startPixel p = startPixelValid p
                    /\ patchSize p = patchSizeValid p
                    /\ (startPixelValid p + patchSizeValid p < 7 -> patchSize p = 3)) l.
Proof.
  split; [lia |]. apply (zero_overlap_patches_abut 7 3); lia.
Defined.

End PlannerExtra.

(** ** More about the copy *)

Module ReassemblerExtra.
Import Reassembler ReassemblerSpec.

Section Copy.
Context {V T : Type}.
Variable clampCast : V -> T.
Variable outAccessor : Z -> Z -> Z -> Z -> V.

(** A sequence of writes that succeeds kept the length and had every
    address inside the container. *)
Lemma storeAll_Some_inv (ws : list (Z * T)) : forall buf buf',
  storeAll ws buf = Some buf' ->
  length buf' = length buf
  /\ forall a v, (a, v) ∈ ws -> 0 <= a < Z.of_nat (length buf).
Proof.
  induction ws as [| [a0 v0] ws IH]; intros buf buf' H.
  - simpl in H. inversion H; subst. split; [reflexivity |].
    intros a v Hin. apply elem_of_nil in Hin. contradiction.
  - simpl in H. unfold store in H.
    destruct (decide (0 <= a0 < Z.of_nat (length buf))) as [Ha0 | Ha0];
      simpl in H; [| discriminate].
    destruct (IH _ _ H) as (Hlen & Hbound).
    rewrite length_insert in Hlen, Hbound.
    split; [exact Hlen |].
    intros a v Hin. apply elem_of_cons in Hin as [Heq | Hin].
    + inversion Heq; subst. exact Ha0.
    + exact (Hbound a v Hin).
Qed.

Lemma copyLoops_Some_iff outputSize r (buf : list T) :
  is_Some (copyLoops clampCast outAccessor outputSize r buf)
  <-> forall s l p, inRanges r s l p ->
        0 <= outputAddress outputSize s l p < Z.of_nat (length buf).
Proof.
  rewrite copyLoops_storeAll. split.
  - intros [buf' H] s l p Hin.
    destruct (storeAll_Some_inv _ _ _ H) as (_ & Hbound).
    apply (Hbound _ (patchSample clampCast outAccessor r s l p)).
    apply elem_of_patchWrites. exists s, l, p. auto.
  - intros Hbound.
    destruct (storeAll_spec (patchWrites clampCast outAccessor outputSize r) buf)
      as (buf' & Hrun & _).
    + intros a v H. apply elem_of_patchWrites in H as (s & l & p & Hin & -> & _).
      exact (Hbound s l p Hin).
    + exists buf'. exact Hrun.
Qed.

Lemma copyLoops_length outputSize r (buf buf' : list T) :
  copyLoops clampCast outAccessor outputSize r buf = Some buf' ->
  length buf' = length buf.
Proof.
  rewrite copyLoops_storeAll. intros H.
  destruct (storeAll_Some_inv _ _ _ H) as (Hlen & _). exact Hlen.
Qed.

Lemma copyPatchToOutput_length pDataOut pDataOut' modelOutputLayout finalLayout outputSize
    startPixelValid startPixel patchSizeValid :
  copyPatchToOutput clampCast outAccessor pDataOut modelOutputLayout finalLayout
    outputSize startPixelValid startPixel patchSizeValid = Some pDataOut' ->
  length pDataOut' = length pDataOut.
Proof.
  unfold copyPatchToOutput.
  destruct (patchRanges _ _ _ _ _) as [r |]; simpl; [| discriminate].
  apply copyLoops_length.
Qed.

Lemma patchWrites_empty outputSize r :
  outSliceEnd r <= outSliceStart r
  \/ outLineEnd r <= outLineStart r
  \/ outPixelEnd r <= outPixelStart r ->
  patchWrites clampCast outAccessor outputSize r = [].
Proof.
  intros Hempty. apply elem_of_nil_inv. intros [a v] Hin.
  apply elem_of_patchWrites in Hin as (s & l & p & (Hs & Hl & Hp) & _). lia.
Qed.
End Copy.

(** X7: a call of [copyPatchToOutput] stays inside the container exactly when
    the address computed for every coordinate of the three ranges lies
    inside it; a call that does so never changes the number of cells. *)
Theorem copy_defined_iff_addresses_inside {V T : Type} (clampCast : V -> T)
    (outAccessor : Z -> Z -> Z -> Z -> V) (pDataOut : list T)
    (modelOutputLayout finalLayout : string) (outputSize : vec3s)
    (startPixelValid startPixel patchSizeValid : Z) (r : Ranges) :
  patchRanges (layoutPermutation modelOutputLayout finalLayout) outputSize
    startPixelValid startPixel patchSizeValid = Some r ->
  (is_Some (copyPatchToOutput clampCast outAccessor pDataOut modelOutputLayout
              finalLayout outputSize startPixelValid startPixel patchSizeValid)
   <-> forall slice line pixel,
         inRanges r slice line pixel ->
         0 <= outputAddress outputSize slice line pixel < Z.of_nat (length pDataOut))
  /\ forall pDataOut',
       copyPatchToOutput clampCast outAccessor pDataOut modelOutputLayout finalLayout
         outputSize startPixelValid startPixel patchSizeValid = Some pDataOut' ->
       length pDataOut' = length pDataOut.
Proof.
  intros Hr. split.
  - unfold copyPatchToOutput. rewrite Hr. simpl. apply copyLoops_Some_iff.
  - intros pDataOut'. apply copyPatchToOutput_length.
Qed.

Lemma copy_defined_iff_addresses_inside_witness :
  let clampCast := fun v : Z => v in
  let outAccessor := fun _ s l p : Z => 100 * s + 10 * l + p in
  let pDataOut := [0; 0; 0; 0; 0; 0; 0; 0] in
  let outputSize := vec.mk 4 2 1 in
  let r := mkRanges 0 1 0 0 2 0 2 4 1 in
  patchRanges (layoutPermutation "CDHW" "CDHW") outputSize 2 1 2 = Some r
  /\ (is_Some (copyPatchToOutput clampCast outAccessor pDataOut "CDHW" "CDHW"
                 outputSize 2 1 2)
      <-> forall slice line pixel,
            inRanges r slice line pixel ->
            0 <= outputAddress outputSize slice line pixel < Z.of_nat (length pDataOut))
  /\ forall pDataOut',
       copyPatchToOutput clampCast outAccessor pDataOut "CDHW" "CDHW" outputSize 2 1 2
       = Some pDataOut' ->
       length pDataOut' = length pDataOut.
Proof.
  intros clampCast outAccessor pDataOut outputSize r.
  split; [reflexivity |].
  apply (copy_defined_iff_addresses_inside clampCast outAccessor pDataOut "CDHW" "CDHW"
           outputSize 2 1 2 r).
  reflexivity.
Defined.

(** X8: when one of the three ranges is empty (a valid sub-window of length
    zero, or an output extent of zero) the call writes nothing and returns
    the container as it was, whatever its size. *)
Theorem empty_range_copies_nothing {V T : Type} (clampCast : V -> T)
    (outAccessor : Z -> Z -> Z -> Z -> V) (pDataOut : list T)
    (modelOutputLayout finalLayout : string) (outputSize : vec3s)
    (startPixelValid startPixel patchSizeValid : Z) (r : Ranges) :
  patchRanges (layoutPermutation modelOutputLayout finalLayout) outputSize
    startPixelValid startPixel patchSizeValid = Some r ->
  outSliceEnd r <= outSliceStart r
  \/ outLineEnd r <= outLineStart r
  \/ outPixelEnd r <= outPixelStart r ->
  copyPatchToOutput clampCast outAccessor pDataOut modelOutputLayout finalLayout
    outputSize startPixelValid startPixel patchSizeValid = Some pDataOut.
Proof.
  intros Hr Hempty. unfold copyPatchToOutput. rewrite Hr. simpl.
  rewrite copyLoops_storeAll, patchWrites_empty by exact Hempty. reflexivity.
Qed.

Lemma empty_range_copies_nothing_witness :
  let r := mkRanges 0 1 0 0 0 0 2 4 1 in
  (patchRanges (layoutPermutation "CDHW" "CDHW") (vec.mk 4 0 1) 2 1 2 = Some r
   /\ (outSliceEnd r <= outSliceStart r
       \/ outLineEnd r <= outLineStart r
       \/ outPixelEnd r <= outPixelStart r))
  /\ copyPatchToOutput (fun v : Z => v) (fun _ s l p : Z => 100 * s + 10 * l + p)
       [] "CDHW" "CDHW" (vec.mk 4 0 1) 2 1 2 = Some [].
Proof.
  intros r.
  assert (Hr : patchRanges (layoutPermutation "CDHW" "CDHW") (vec.mk 4 0 1) 2 1 2 = Some r)
    by reflexivity.
  assert (Hempty : outSliceEnd r <= outSliceStart r
                   \/ outLineEnd r <= outLineStart r
                   \/ outPixelEnd r <= outPixelStart r)
    by (right; left; simpl; lia).
  split; [split; assumption |].
  apply (empty_range_copies_nothing (fun v : Z => v)
           (fun _ s l p : Z => 100 * s + 10 * l + p) [] "CDHW" "CDHW" (vec.mk 4 0 1)
           2 1 2 r Hr Hempty).
Defined.

End ReassemblerExtra.


(** ** Stitching the patches into the output volume *)

Module StitchingSpec.
Import Planner Reassembler Inference Stitching.
Import PlannerSpec ReassemblerSpec.

Section Copy.
Context {V T : Type}.
Variable clampCast : V -> T.
Variable outAccessor : Z -> Z -> Z -> Z -> V.

(** The copy loops over ranges that lie inside the volume: every coordinate
    of the ranges gets its sample, every other cell stays. *)
Lemma copyLoops_inside outputSize r (buf : list T) :
  0 <= outSliceOffset r <= outSliceStart r ->
  0 <= outLineOffset r <= outLineStart r ->
  0 <= outPixelOffset r <= outPixelStart r ->
  outSliceEnd r <= vec.z outputSize ->
  outLineEnd r <= vec.y outputSize ->
  outPixelEnd r <= vec.x outputSize ->
  vec.x outputSize * vec.y outputSize * vec.z outputSize
    <= Z.of_nat (length buf) < 2 ^ 63 ->
  exists buf',
    copyLoops clampCast outAccessor outputSize r buf = Some buf'
    /\ length buf' = length buf
    /\ (forall s l p,
          inRanges r s l p ->
          buf' !! Z.to_nat (rowMajor outputSize s l p)
          = Some (clampCast (outAccessor 0 (s - outSliceOffset r)
                               (l - outLineOffset r) (p - outPixelOffset r))))
    /\ (forall i : nat,
          (forall s l p, inRanges r s l p -> i <> Z.to_nat (rowMajor outputSize s l p)) ->
          buf' !! i = buf !! i).
Proof.
  intros HoffS HoffL HoffP HendS HendL HendP Hsize.
  rewrite copyLoops_storeAll.
  assert (Hcoord : forall s l p, inRanges r s l p ->
            inVolume outputSize s l p
            /\ outputAddress outputSize s l p = rowMajor outputSize s l p
            /\ 0 <= rowMajor outputSize s l p < Z.of_nat (length buf)
            /\ patchSample clampCast outAccessor r s l p
               = clampCast (outAccessor 0 (s - outSliceOffset r)
                              (l - outLineOffset r) (p - outPixelOffset r))).
  { intros s l p (Hs & Hl & Hp).
    assert (Hin : inVolume outputSize s l p) by (unfold inVolume; lia).
    destruct Hin as (Hs' & Hl' & Hp').
    pose proof (rowMajor_range outputSize s l p Hs' Hl' Hp') as Hrange.
    destruct (le_prod3 (vec.x outputSize) (vec.y outputSize) (vec.z outputSize))
      as (Hx & Hy & Hz); [lia | lia | lia |].
    split; [unfold inVolume; lia |].
    split; [apply outputAddress_rowMajor; lia |]. split; [lia |].
    unfold patchSample. rewrite !toInt64_small by lia. reflexivity. }
  destruct (storeAll_spec (patchWrites clampCast outAccessor outputSize r) buf)
    as (buf' & Hrun & Hlen & Hother & Hwritten).
  { intros a v H. apply elem_of_patchWrites in H as (s & l & p & Hin & -> & _).
    destruct (Hcoord s l p Hin) as (_ & -> & Hb & _). exact Hb. }
  exists buf'. split; [exact Hrun |]. split; [exact Hlen |]. split.
  - intros s l p Hin. destruct (Hcoord s l p Hin) as (_ & Haddr & _ & Hval).
    rewrite <- Haddr, <- Hval. apply Hwritten.
    + intros a v v' H1 H2.
      apply elem_of_patchWrites in H1 as (s1 & l1 & p1 & Hin1 & Ha1 & ->).
      apply elem_of_patchWrites in H2 as (s2 & l2 & p2 & Hin2 & Ha2 & ->).
      destruct (Hcoord s1 l1 p1 Hin1) as ((_ & Hl1 & Hp1) & Haddr1 & _).
      destruct (Hcoord s2 l2 p2 Hin2) as ((_ & Hl2 & Hp2) & Haddr2 & _).
      destruct (rowMajor_inj outputSize s1 l1 p1 s2 l2 p2) as (-> & -> & ->);
        [assumption .. | congruence | reflexivity].
    + apply elem_of_patchWrites. exists s, l, p. auto.
  - intros i Hi. apply Hother. intros a v H.
    apply elem_of_patchWrites in H as (s & l & p & Hin & -> & _).
    destruct (Hcoord s l p Hin) as (_ & -> & _). intros Heq. exact (Hi s l p Hin (eq_sym Heq)).
Qed.

(** One patch copied along the tiled axis [a]: the positions of the volume
    whose coordinate along [a] lies in the valid sub-window get their
    samples, all other positions of the volume keep their cells. *)
Lemma copyPatchToOutput_tiled (a : Axis) (buf : list T)
    (modelOutputLayout finalLayout : string) (outputSize : vec3s)
    (startPixelValid startPixel patchSizeValid : Z) :
  (4 <= length (layoutPermutation modelOutputLayout finalLayout))%nat ->
  tiledAxis (layoutPermutation modelOutputLayout finalLayout) = Some a ->
  0 <= startPixel <= startPixelValid ->
  0 <= patchSizeValid ->
  startPixelValid + patchSizeValid <= axisExtent outputSize a ->
  0 < vec.x outputSize -> 0 < vec.y outputSize -> 0 < vec.z outputSize ->
  vec.x outputSize * vec.y outputSize * vec.z outputSize = Z.of_nat (length buf) ->
  Z.of_nat (length buf) < 2 ^ 63 ->
  exists buf',
    copyPatchToOutput clampCast outAccessor buf modelOutputLayout finalLayout outputSize
      startPixelValid startPixel patchSizeValid = Some buf'
    /\ length buf' = length buf
    /\ (forall s l p,
          inVolume outputSize s l p ->
          startPixelValid <= coordinate a s l p < startPixelValid + patchSizeValid ->
          buf' !! Z.to_nat (rowMajor outputSize s l p)
          = Some (clampCast (patchLocal a startPixel outAccessor s l p)))
    /\ (forall s l p,
          inVolume outputSize s l p ->
          ~ (startPixelValid <= coordinate a s l p < startPixelValid + patchSizeValid) ->
          buf' !! Z.to_nat (rowMajor outputSize s l p)
          = buf !! Z.to_nat (rowMajor outputSize s l p)).
Proof.
  intros Hlen Htiled Hsp Hpsv Hend Hx Hy Hz Hvol Hsmall.
  destruct (patchRanges_tiledAxis _ outputSize startPixelValid startPixel patchSizeValid Hlen)
    as (r & Hr & Haxis).
  rewrite Htiled in Haxis. destruct Haxis as (Hnarrow & Hfull).
  unfold copyPatchToOutput. rewrite Hr. simpl.
  destruct (le_prod3 (vec.x outputSize) (vec.y outputSize) (vec.z outputSize))
    as (Hx' & Hy' & Hz'); [lia | lia | lia |].
  assert (Hwrap : wrap64 (startPixelValid + patchSizeValid)
                  = startPixelValid + patchSizeValid).
  { apply wrap64_small. destruct a; simpl in Hend; lia. }
  unfold narrowedTo in Hnarrow. rewrite Hwrap in Hnarrow.
  assert (Hranges : forall s l p,
            inRanges r s l p
            <-> inVolume outputSize s l p
                /\ startPixelValid <= coordinate a s l p < startPixelValid + patchSizeValid).
  { intros s l p. unfold inRanges, inVolume.
    destruct a;
      [ destruct (Hfull LineAxis ltac:(discriminate)) as (? & ? & ?);
        destruct (Hfull PixelAxis ltac:(discriminate)) as (? & ? & ?)
      | destruct (Hfull SliceAxis ltac:(discriminate)) as (? & ? & ?);
        destruct (Hfull PixelAxis ltac:(discriminate)) as (? & ? & ?)
      | destruct (Hfull SliceAxis ltac:(discriminate)) as (? & ? & ?);
        destruct (Hfull LineAxis ltac:(discriminate)) as (? & ? & ?) ];
      destruct Hnarrow as (? & ? & ?); simpl in *; lia. }
  assert (Hsample : forall s l p,
            outAccessor 0 (s - outSliceOffset r) (l - outLineOffset r) (p - outPixelOffset r)
            = patchLocal a startPixel outAccessor s l p).
  { intros s l p. unfold patchLocal.
    destruct a;
      [ destruct (Hfull LineAxis ltac:(discriminate)) as (? & ? & ?);
        destruct (Hfull PixelAxis ltac:(discriminate)) as (? & ? & ?)
      | destruct (Hfull SliceAxis ltac:(discriminate)) as (? & ? & ?);
        destruct (Hfull PixelAxis ltac:(discriminate)) as (? & ? & ?)
      | destruct (Hfull SliceAxis ltac:(discriminate)) as (? & ? & ?);
        destruct (Hfull LineAxis ltac:(discriminate)) as (? & ? & ?) ];
      destruct Hnarrow as (? & ? & ?); simpl in *;
      repeat match goal with H : _ = _ |- _ => rewrite H end;
      rewrite ?Z.sub_0_r; reflexivity. }
  destruct (copyLoops_inside outputSize r buf) as (buf' & Hrun & Hlen' & Hwritten & Hother).
  1-6: destruct a;
      [ destruct (Hfull LineAxis ltac:(discriminate)) as (? & ? & ?);
        destruct (Hfull PixelAxis ltac:(discriminate)) as (? & ? & ?)
      | destruct (Hfull SliceAxis ltac:(discriminate)) as (? & ? & ?);
        destruct (Hfull PixelAxis ltac:(discriminate)) as (? & ? & ?)
      | destruct (Hfull SliceAxis ltac:(discriminate)) as (? & ? & ?);
        destruct (Hfull LineAxis ltac:(discriminate)) as (? & ? & ?) ];
      destruct Hnarrow as (? & ? & ?); simpl in *; lia.
  { lia. }
  exists buf'. split; [exact Hrun |]. split; [exact Hlen' |]. split.
  - intros s l p Hin Hwin. rewrite <- Hsample. apply Hwritten.
    apply Hranges. split; assumption.
  - intros s l p Hin Hout. apply Hother. intros s' l' p' Hin' Heq.
    apply Hranges in Hin' as (Hvol' & Hwin').
    destruct Hin as (Hs & Hl & Hp). destruct Hvol' as (Hs' & Hl' & Hp').
    pose proof (rowMajor_range outputSize s l p Hs Hl Hp).
    pose proof (rowMajor_range outputSize s' l' p' Hs' Hl' Hp').
    destruct (rowMajor_inj outputSize s l p s' l' p') as (-> & -> & ->);
      [assumption .. | lia |]. exact (Hout Hwin').
Qed.
End Copy.

(** *** Chains of patches *)

Section Chain.
Variables numPixels inferencePatchSize inferencePatchOverlap : Z.

Local Abbreviation chainOf := (chain numPixels inferencePatchSize inferencePatchOverlap).

Lemma chain_split l1 : forall c b q l2,
  chainOf c b (l1 ++ q :: l2) ->
  chainOf c (startPixelValid q) l1 /\ chainOf (startPixelValid q) b (q :: l2).
Proof.
  induction l1 as [| p l1 IH]; intros c b q l2 H.
  - simpl in H. destruct H as (Hq & Hr & Hc & Hspv & Hrest).
    rewrite Hspv. split; [reflexivity |]. simpl. auto.
  - simpl in H. destruct H as (Hp & Hr & Hc & Hspv & Hpos & Hle & Hrest).
    destruct (IH _ _ _ _ Hrest) as (Hprefix & Hsuffix).
    split; [| exact Hsuffix].
    simpl. repeat split; try assumption; try lia.
    exact (chain_le _ _ _ _ _ _ Hprefix).
Qed.

Lemma chain_covering l : forall c b x,
  chainOf c b l -> c <= x < b -> exists q, q ∈ l /\ inValid x q = true.
Proof.
  induction l as [| q l IH]; intros c b x H Hx.
  - simpl in H. lia.
  - simpl in H. destruct H as (_ & _ & _ & Hspv & Hpos & Hle & Hrest).
    destruct (Z.lt_ge_cases x (c + patchSizeValid q)) as [Hlt | Hge].
    + exists q. split; [apply list_elem_of_here |].
      unfold inValid. rewrite Hspv.
      apply andb_true_iff. split; [apply Z.leb_le | apply Z.ltb_lt]; lia.
    + destruct (IH _ _ x Hrest) as (q' & Hin & Hcov); [lia |].
      exists q'. split; [apply list_elem_of_further; exact Hin | exact Hcov].
Qed.

Lemma inValid_true x q :
  inValid x q = true
  <-> startPixelValid q <= x < startPixelValid q + patchSizeValid q.
Proof.
  unfold inValid. rewrite andb_true_iff, Z.leb_le, Z.ltb_lt. reflexivity.
Qed.
End Chain.

(** *** The loop of process along a chain *)

Section Call.
Context {V T : Type}.
Variable self : TorchInference V.
Variable ext : Externals V T.
Variable inputData : Tensor V.
Variables inputSize outputSize : vec3s.
Variables currentLayout finalLayout : string.
Variables modelInputDataType modelOutputDataType : DataType.
Variables modelInputLayout modelOutputLayout : string.
Variable forward : Method V.
Variables numPixels inferencePatchSize inferencePatchOverlap : Z.
Variable a : Axis.

Hypothesis numPixels_size_t : 0 <= numPixels < 2 ^ 64.
Hypothesis overlap_nonneg : 0 <= inferencePatchOverlap.
Hypothesis patch_larger : 2 * inferencePatchOverlap < inferencePatchSize < 2 ^ 32.
Hypothesis permutation_length :
  (4 <= length (layoutPermutation modelOutputLayout finalLayout))%nat.
Hypothesis tiled : tiledAxis (layoutPermutation modelOutputLayout finalLayout) = Some a.
Hypothesis tiled_extent : axisExtent outputSize a = numPixels.
Hypothesis x_pos : 0 < vec.x outputSize.
Hypothesis y_pos : 0 < vec.y outputSize.
Hypothesis z_pos : 0 < vec.z outputSize.
Hypothesis volume_small :
  vec.x outputSize * vec.y outputSize * vec.z outputSize < 2 ^ 63.

Local Abbreviation loop :=
  (patchLoop self ext inputData outputSize currentLayout finalLayout
     modelInputDataType modelOutputDataType modelInputLayout modelOutputLayout).
Local Abbreviation model :=
  (runPatch self ext inputData currentLayout finalLayout
     modelInputDataType modelOutputDataType modelInputLayout modelOutputLayout forward).
Local Abbreviation cells :=
  (vec.x outputSize * vec.y outputSize * vec.z outputSize).

(** The model returns a tensor of a supported element type for patch [q]. *)
Local Abbreviation supportedOn q :=
  (exists out mt, model q = Ok out /\ modelOutputTypeOf (dtype out) = Some mt).

(** The cell of a position holds the sample of patch [q]. *)
Local Abbreviation holds buf q out mt s l p :=
  (buf !! Z.to_nat (rowMajor outputSize s l p)
   = Some (Some (clampCast ext mt (patchLocal a (startPixel q) (accessor out) s l p)))).

Lemma allocate_length :
  Z.of_nat (length (allocate (T := T) outputSize)) = cells.
Proof.
  clear permutation_length.
  unfold allocate. rewrite length_replicate.
  destruct (le_prod3 (vec.x outputSize) (vec.y outputSize) (vec.z outputSize))
    as (Hx & Hy & Hz); [lia | lia | lia |].
  assert (0 < vec.x outputSize * vec.y outputSize) by nia.
  assert (vec.x outputSize * vec.y outputSize <= cells) by nia.
  rewrite (wrap64_small (vec.x outputSize * vec.y outputSize)) by lia.
  rewrite wrap64_small by lia. lia.
Qed.

Lemma patchLoop_prefix l : forall c c' (buf : Container T),
  chain numPixels inferencePatchSize inferencePatchOverlap c c' l ->
  c' <= numPixels ->
  Z.of_nat (length buf) = cells ->
  Forall (fun q => supportedOn q) l ->
  exists buf',
    (forall k, loop (length l + k)%nat forward numPixels inferencePatchSize
                 inferencePatchOverlap buf c
               = loop k forward numPixels inferencePatchSize inferencePatchOverlap buf' c')
    /\ length buf' = length buf
    /\ (forall q out mt,
          q ∈ l -> model q = Ok out -> modelOutputTypeOf (dtype out) = Some mt ->
          forall s l' p,
            inVolume outputSize s l' p ->
            inValid (coordinate a s l' p) q = true ->
            holds buf' q out mt s l' p)
    /\ (forall s l' p,
          inVolume outputSize s l' p ->
          coordinate a s l' p < c \/ c' <= coordinate a s l' p ->
          buf' !! Z.to_nat (rowMajor outputSize s l' p)
          = buf !! Z.to_nat (rowMajor outputSize s l' p)).
Proof.
  induction l as [| q l IH]; intros c c' buf Hchain Hc' Hlen Hok.
  - simpl in Hchain. subst c'. exists buf. split; [reflexivity |].
    split; [reflexivity |]. split; [| reflexivity].
    intros q out mt Hin. apply elem_of_nil in Hin. contradiction.
  - simpl in Hchain. destruct Hchain as (Hq & Hr & Hc & Hspv & Hpos & Hle & Hrest).
    apply Forall_cons in Hok as ((out & mt & Hrun & Hmt) & Hok).
    assert (Hstart : 0 <= startPixel q <= startPixelValid q).
    { rewrite Hq.
      destruct (PlannerExtra.planPatch_cases numPixels inferencePatchSize
                  inferencePatchOverlap numPixels_size_t overlap_nonneg patch_larger
                  c Hr Hc)
        as [(? & ? & ->) | [(? & ? & ->) | [(? & ? & ->) | (? & ? & ->)]]];
        simpl; lia. }
    pose proof (chain_le _ _ _ _ _ _ Hrest) as Hle'.
    destruct (copyPatchToOutput_tiled (fun v => Some (clampCast ext mt v)) (accessor out)
                a buf modelOutputLayout finalLayout outputSize
                (startPixelValid q) (startPixel q) (patchSizeValid q))
      as (buf1 & Hcopy & Hlen1 & Hwritten1 & Hother1);
      [assumption | assumption | lia | lia | lia | assumption | assumption | assumption
       | lia | lia |].
    destruct (IH (c + patchSizeValid q) c' buf1 Hrest Hc' ltac:(lia) Hok)
      as (buf' & Hloop & Hlen' & Hwritten & Hother).
    exists buf'. split; [| split; [lia | split]].
    + intros k. change (length (q :: l) + k)%nat with (S (length l + k)).
      cbn [patchLoop]. destruct (Z.ltb_spec c numPixels) as [_ | Hge]; [| lia].
      rewrite <- Hq, Hrun.
      rewrite (InferenceSpec.copyDispatch_cases ext outputSize finalLayout modelOutputLayout),
        Hmt.
      unfold copyPatch. rewrite Hcopy. rewrite wrap64_small by lia.
      apply Hloop.
    + intros q' out' mt' Hin Hrun' Hmt' s l' p Hvol Hcov.
      apply inValid_true in Hcov.
      apply elem_of_cons in Hin as [-> | Hin].
      * rewrite Hrun in Hrun'. inversion Hrun'; subst out'.
        rewrite Hmt in Hmt'. inversion Hmt'; subst mt'.
        rewrite (Hother s l' p Hvol) by (left; lia). apply Hwritten1; [exact Hvol | lia].
      * apply (Hwritten q' out' mt' Hin Hrun' Hmt' s l' p Hvol).
        apply inValid_true. exact Hcov.
    + intros s l' p Hvol Hout.
      rewrite (Hother s l' p Hvol) by lia. apply Hother1; [exact Hvol | lia].
Qed.

Lemma patchLoop_exit k (buf : Container T) c :
  numPixels <= c ->
  loop k forward numPixels inferencePatchSize inferencePatchOverlap buf c = Finished buf.
Proof.
  clear permutation_length.
  intros Hc. destruct k; cbn [patchLoop];
    (destruct (Z.ltb_spec c numPixels); [lia | reflexivity]).
Qed.

(** With a model loaded and the check of line 65 satisfied, [process] is its
    loop run on a fresh container. *)
Lemma process_runs_loop ndebug fuel :
  m_torchModule self = Some forward ->
  vec.x inputSize = numPixels ->
  process self ext inputData inputSize outputSize currentLayout finalLayout
    modelInputDataType modelOutputDataType modelInputLayout modelOutputLayout
    ndebug fuel inferencePatchSize inferencePatchOverlap
  = match loop fuel forward numPixels inferencePatchSize inferencePatchOverlap
            (allocate outputSize) 0 with
    | Finished pDataOut => Returned (Some pDataOut) []
    | Thrown e pDataOut => Returned (Some pDataOut) (logException self e)
    | Undefined => UndefinedBehaviour
    | OutOfFuel => NoExit
    end.
Proof.
  intros Hm Hx. unfold process. rewrite Hm, Hx. simpl. rewrite andb_false_r.
  unfold effectivePatchSize. destruct (Z.eqb_spec inferencePatchSize 0); [lia |].
  rewrite patchSizeAssertion_holds by lia. simpl. rewrite andb_false_r. reflexivity.
Qed.


Lemma process_exception l1 q l2 e :
  m_torchModule self = Some forward ->
  vec.x inputSize = numPixels ->
  chain numPixels inferencePatchSize inferencePatchOverlap 0 numPixels (l1 ++ q :: l2) ->
  Forall (fun q' => supportedOn q') l1 ->
  model q = Throw e ->
  exists pDataOut : Container T,
    (forall fuel ndebug, (Z.to_nat numPixels <= fuel)%nat ->
       process self ext inputData inputSize outputSize currentLayout finalLayout
         modelInputDataType modelOutputDataType modelInputLayout modelOutputLayout
         ndebug fuel inferencePatchSize inferencePatchOverlap
       = Returned (Some pDataOut) (logException self e))
    /\ Z.of_nat (length pDataOut) = cells
    /\ (forall q' out mt,
          q' ∈ l1 -> model q' = Ok out -> modelOutputTypeOf (dtype out) = Some mt ->
          forall s l' p,
            inVolume outputSize s l' p ->
            inValid (coordinate a s l' p) q' = true ->
            holds pDataOut q' out mt s l' p)
    /\ (forall s l' p,
          inVolume outputSize s l' p ->
          coordinate a s l' p < startPixelValid q ->
          exists v, pDataOut !! Z.to_nat (rowMajor outputSize s l' p) = Some (Some v))
    /\ (forall s l' p,
          inVolume outputSize s l' p ->
          startPixelValid q <= coordinate a s l' p ->
          pDataOut !! Z.to_nat (rowMajor outputSize s l' p) = Some None).
Proof.
  intros Hm Hx Hchain Hok Hthrow.
  pose proof (chain_length _ _ _ _ _ _ Hchain) as Hcount.
  rewrite Z.sub_0_r, length_app in Hcount. simpl in Hcount.
  destruct (chain_split _ _ _ _ _ _ _ _ Hchain) as (Hprefix & Hsuffix).
  simpl in Hsuffix. destruct Hsuffix as (Hq & _ & Hc & _).
  destruct (patchLoop_prefix l1 0 (startPixelValid q) (allocate outputSize) Hprefix
              ltac:(lia) allocate_length Hok)
    as (buf' & Hloop & Hlen & Hwritten & Hother).
  exists buf'. split; [| split; [| split; [| split]]].
  - intros fuel ndebug Hfuel. rewrite process_runs_loop by assumption.
    replace fuel with (length l1 + S (fuel - length l1 - 1))%nat by lia.
    rewrite Hloop. cbn [patchLoop].
    destruct (Z.ltb_spec (startPixelValid q) numPixels); [| lia].
    rewrite <- Hq, Hthrow. reflexivity.
  - rewrite Hlen. apply allocate_length.
  - exact Hwritten.
  - intros s l' p Hvol Hlt.
    assert (Hcoord : 0 <= coordinate a s l' p < startPixelValid q).
    { destruct Hvol as (? & ? & ?). destruct a; simpl in *; lia. }
    destruct (chain_covering _ _ _ l1 0 (startPixelValid q) _ Hprefix Hcoord)
      as (q' & Hin & Hcov).
    pose proof (proj1 (Forall_forall _ _) Hok q' Hin) as (out & mt & Hrun & Hmt).
    eexists. exact (Hwritten q' out mt Hin Hrun Hmt s l' p Hvol Hcov).
  - intros s l' p Hvol Hge. rewrite (Hother s l' p Hvol) by (right; exact Hge).
    unfold allocate. apply lookup_replicate. split; [reflexivity |].
    pose proof allocate_length as Halloc. unfold allocate in Halloc.
    rewrite length_replicate in Halloc.
    destruct Hvol as (Hs & Hl & Hp).
    pose proof (rowMajor_range outputSize s l' p Hs Hl Hp). lia.
Qed.
End Call.

(** *** The inference call as a whole *)


(** X13: in the same setting, when the model returns supported tensors for
    the patches [l1] and throws [e] on the next planned patch [q], the call
    returns the container it allocated and logs what the handler of [e]
    logs.  In that container the positions before [startPixelValid q] along
    the tiled axis hold the samples of the patches of [l1], and every
    position from [startPixelValid q] on was never written. *)
Theorem exception_keeps_earlier_patches {V T : Type}
    (self : TorchInference V) (ext : Externals V T) (inputData : Tensor V)
    (inputSize outputSize : vec3s) (currentLayout finalLayout : string)
    (modelInputDataType modelOutputDataType : DataType)
    (modelInputLayout modelOutputLayout : string) (forward : Method V)
    (inferencePatchSize inferencePatchOverlap : Z) (a : Axis)
    (l1 : list Patch) (q : Patch) (l2 : list Patch) (e : Exception) :
  m_torchModule self = Some forward ->
  0 <= inferencePatchOverlap ->
  2 * inferencePatchOverlap < inferencePatchSize < 2 ^ 32 ->
  (4 <= length (layoutPermutation modelOutputLayout finalLayout))%nat ->
  tiledAxis (layoutPermutation modelOutputLayout finalLayout) = Some a ->
  axisExtent outputSize a = vec.x inputSize ->
  0 < vec.x outputSize -> 0 < vec.y outputSize -> 0 < vec.z outputSize ->
  vec.x outputSize * vec.y outputSize * vec.z outputSize < 2 ^ 63 ->
  planLoop (Z.to_nat (vec.x inputSize)) (vec.x inputSize) inferencePatchSize
    inferencePatchOverlap 0 = Some (l1 ++ q :: l2) ->
  Forall (fun q' =>
            exists out mt,
              runPatch self ext inputData currentLayout finalLayout modelInputDataType
                modelOutputDataType modelInputLayout modelOutputLayout forward q' = Ok out
              /\ modelOutputTypeOf (dtype out) = Some mt) l1 ->
  runPatch self ext inputData currentLayout finalLayout modelInputDataType
    modelOutputDataType modelInputLayout modelOutputLayout forward q = Throw e ->
  exists pDataOut : Container T,
    (forall fuel ndebug, (Z.to_nat (vec.x inputSize) <= fuel)%nat ->
       process self ext inputData inputSize outputSize currentLayout finalLayout
         modelInputDataType modelOutputDataType modelInputLayout modelOutputLayout
         ndebug fuel inferencePatchSize inferencePatchOverlap
       = Returned (Some pDataOut) (logException self e))
    /\ Z.of_nat (length pDataOut)
       = vec.x outputSize * vec.y outputSize * vec.z outputSize
    /\ (forall q' out mt,
          q' ∈ l1 ->
          runPatch self ext inputData currentLayout finalLayout modelInputDataType
            modelOutputDataType modelInputLayout modelOutputLayout forward q' = Ok out ->
          modelOutputTypeOf (dtype out) = Some mt ->
          forall slice line pixel,
            inVolume outputSize slice line pixel ->
            inValid (coordinate a slice line pixel) q' = true ->
            pDataOut !! Z.to_nat (rowMajor outputSize slice line pixel)
            = Some (Some (clampCast ext mt
                            (patchLocal a (startPixel q') (accessor out) slice line pixel))))
    /\ (forall slice line pixel,
          inVolume outputSize slice line pixel ->
          coordinate a slice line pixel < startPixelValid q ->
          exists v,
            pDataOut !! Z.to_nat (rowMajor outputSize slice line pixel) = Some (Some v))
    /\ (forall slice line pixel,
          inVolume outputSize slice line pixel ->
          startPixelValid q <= coordinate a slice line pixel ->
          pDataOut !! Z.to_nat (rowMajor outputSize slice line pixel) = Some None).
Proof.
  intros Hm HO HP Hlen Htiled Hext Hx Hy Hz Hvol Hplan Hok Hthrow.
  set (numPixels := vec.x inputSize) in *.
  assert (HN : 0 <= numPixels < 2 ^ 64).
  { destruct (le_prod3 (vec.x outputSize) (vec.y outputSize) (vec.z outputSize))
      as (? & ? & ?); [lia | lia | lia |].
    rewrite <- Hext. destruct a; simpl; lia. }
  destruct (planLoop_total numPixels inferencePatchSize inferencePatchOverlap HN HO HP)
    as (l & Hl & Hchain).
  rewrite (Hl (Z.to_nat numPixels)) in Hplan by lia. inversion Hplan; subst l.
  exact (process_exception self ext inputData inputSize outputSize currentLayout
           finalLayout modelInputDataType modelOutputDataType modelInputLayout
           modelOutputLayout forward numPixels inferencePatchSize inferencePatchOverlap
           a HN HO HP Hlen Htiled Hext Hx Hy Hz Hvol l1 q l2 e Hm eq_refl Hchain Hok Hthrow).
Qed.

(** X16: [inferencePatchSize = 0] at the level of the call: with a loaded
    model, an axis of [0 < inputSize.x < 2^32] pixels longer than twice the
    overlap, and a model that returns a supported tensor for the one patch
    [0, inputSize.x), the call returns normally after that single model
    run, and every position of the output volume holds the converted sample
    of the model output at the same position. *)
Theorem zero_patch_size_copies_whole_output {V T : Type}
    (self : TorchInference V) (ext : Externals V T) (inputData : Tensor V)
    (inputSize outputSize : vec3s) (currentLayout finalLayout : string)
    (modelInputDataType modelOutputDataType : DataType)
    (modelInputLayout modelOutputLayout : string) (forward : Method V)
    (inferencePatchOverlap : Z) (a : Axis) (out : Tensor V) (mt : ModelOutputType) :
  m_torchModule self = Some forward ->
  0 < vec.x inputSize < 2 ^ 32 ->
  0 <= inferencePatchOverlap ->
  2 * inferencePatchOverlap < vec.x inputSize ->
  (4 <= length (layoutPermutation modelOutputLayout finalLayout))%nat ->
  tiledAxis (layoutPermutation modelOutputLayout finalLayout) = Some a ->
  axisExtent outputSize a = vec.x inputSize ->
  0 < vec.x outputSize -> 0 < vec.y outputSize -> 0 < vec.z outputSize ->
  vec.x outputSize * vec.y outputSize * vec.z outputSize < 2 ^ 63 ->
  runPatch self ext inputData currentLayout finalLayout modelInputDataType
    modelOutputDataType modelInputLayout modelOutputLayout forward
    (mkPatch 0 0 (vec.x inputSize) (vec.x inputSize)) = Ok out ->
  modelOutputTypeOf (dtype out) = Some mt ->
  exists pDataOut : Container T,
    (forall fuel ndebug, (1 <= fuel)%nat ->
       process self ext inputData inputSize outputSize currentLayout finalLayout
         modelInputDataType modelOutputDataType modelInputLayout modelOutputLayout
         ndebug fuel 0 inferencePatchOverlap
       = Returned (Some pDataOut) [])
    /\ Z.of_nat (length pDataOut)
       = vec.x outputSize * vec.y outputSize * vec.z outputSize
    /\ (forall slice line pixel,
          inVolume outputSize slice line pixel ->
          pDataOut !! Z.to_nat (rowMajor outputSize slice line pixel)
          = Some (Some (clampCast ext mt (accessor out 0 slice line pixel)))).
Proof.
  intros Hm HN HO HP Hlen Htiled Hext Hx Hy Hz Hvol Hrun Hmt.
  set (numPixels := vec.x inputSize) in *.
  set (q := mkPatch 0 0 numPixels numPixels) in *.
  assert (Hq : planPatch numPixels numPixels inferencePatchOverlap 0 = q).
  { apply planPatch_first_only; lia. }
  assert (Hchain : chain numPixels numPixels inferencePatchOverlap 0 numPixels [q]).
  { simpl. rewrite Hq. repeat split; try lia. left. reflexivity. }
  assert (Halloc : Z.of_nat (length (allocate (T := T) outputSize))
                   = vec.x outputSize * vec.y outputSize * vec.z outputSize).
  { exact (allocate_length outputSize Hx Hy Hz Hvol). }
  destruct (patchLoop_prefix self ext inputData outputSize currentLayout finalLayout
              modelInputDataType modelOutputDataType modelInputLayout modelOutputLayout
              forward numPixels numPixels inferencePatchOverlap a
              ltac:(lia) HO ltac:(lia) Hlen Htiled Hext Hx Hy Hz Hvol
              [q] 0 numPixels (allocate outputSize) Hchain ltac:(lia) Halloc)
    as (buf' & Hloop & Hlen' & Hwritten & _).
  { constructor; [| constructor]. exists out, mt. auto. }
  exists buf'. split; [| split].
  - intros fuel ndebug Hfuel. unfold process. rewrite Hm. simpl. rewrite andb_false_r.
    fold numPixels. unfold effectivePatchSize. simpl.
    rewrite (wrap32_small numPixels) by lia.
    rewrite patchSizeAssertion_holds by lia. simpl. rewrite andb_false_r.
    destruct fuel as [| k]; [lia |].
    change (S k) with (length [q] + k)%nat.
    rewrite Hloop.
    rewrite (patchLoop_exit self ext inputData outputSize currentLayout finalLayout
               modelInputDataType modelOutputDataType modelInputLayout modelOutputLayout
               forward numPixels numPixels inferencePatchOverlap) by lia.
    reflexivity.
  - rewrite Hlen'. exact Halloc.
  - intros s l p Hvol'.
    assert (Hlocal : patchLocal a (startPixel q) (accessor out) s l p
                     = accessor out 0 s l p).
    { unfold patchLocal. simpl. destruct a; rewrite Z.sub_0_r; reflexivity. }
    rewrite <- Hlocal.
    apply (Hwritten q out mt); [apply list_elem_of_here | exact Hrun | exact Hmt
                               | exact Hvol' |].
    apply inValid_true. simpl.
    destruct Hvol' as (? & ? & ?). destruct a; simpl in Hext |- *; lia.
Qed.

Import Scenario.

Lemma zero_patch_size_copies_whole_output_witness :
  let out := mkTensor kFloat (fun _ _ _ pixel : Z => pixel + 0) in
  (m_torchModule (loaded identityModel) = Some identityModel
   /\ 0 < vec.x (vec.mk 4 1 1) < 2 ^ 32
   /\ 2 * 1 < vec.x (vec.mk 4 1 1)
   /\ runPatch (loaded identityModel) externals ramp "CDHW" "CDHW" TypeFloat TypeFloat
        "CDHW" "CDHW" identityModel (mkPatch 0 0 4 4) = Ok out
   /\ modelOutputTypeOf (dtype out) = Some float)
  /\ exists pDataOut : Container Z,
       (forall fuel ndebug, (1 <= fuel)%nat ->
          process (loaded identityModel) externals ramp (vec.mk 4 1 1) (vec.mk 4 1 1)
            "CDHW" "CDHW" TypeFloat TypeFloat "CDHW" "CDHW" ndebug fuel 0 1
          = Returned (Some pDataOut) [])
       /\ forall slice line pixel,
            inVolume (vec.mk 4 1 1) slice line pixel ->
            pDataOut !! Z.to_nat (rowMajor (vec.mk 4 1 1) slice line pixel)
            = Some (Some (clampCast externals float (accessor out 0 slice line pixel))).
Proof.
  intros out.
  split; [repeat split; simpl; lia |].
  destruct (zero_patch_size_copies_whole_output (loaded identityModel) externals ramp
              (vec.mk 4 1 1) (vec.mk 4 1 1) "CDHW" "CDHW" TypeFloat TypeFloat
              "CDHW" "CDHW" identityModel 1 PixelAxis out float)
    as (pDataOut & Hcall & _ & Hall);
    [ reflexivity | simpl; lia | lia | simpl; lia | vm_compute; lia | reflexivity
    | reflexivity | simpl; lia | simpl; lia | simpl; lia | simpl; lia | reflexivity
    | reflexivity |].
  exists pDataOut. split; [exact Hcall | exact Hall].
Defined.


Lemma exception_keeps_earlier_patches_witness :
  let e := c10_Error "shape mismatch" "frame #0: forward" in
  (m_torchModule (loaded failingModel) = Some failingModel
   /\ planLoop (Z.to_nat 4) 4 3 1 0 = Some ([mkPatch 0 0 3 2] ++ mkPatch 2 1 3 2 :: [])
   /\ runPatch (loaded failingModel) externals ramp "CDHW" "CDHW" TypeFloat TypeFloat
        "CDHW" "CDHW" failingModel (mkPatch 2 1 3 2) = Throw e)
  /\ exists pDataOut : Container Z,
       (forall fuel ndebug, (4 <= fuel)%nat ->
          process (loaded failingModel) externals ramp (vec.mk 4 1 1) (vec.mk 4 1 1)
            "CDHW" "CDHW" TypeFloat TypeFloat "CDHW" "CDHW" ndebug fuel 3 1
          = Returned (Some pDataOut) (logException (loaded failingModel) e))
       /\ (forall slice line pixel,
             inVolume (vec.mk 4 1 1) slice line pixel ->
             pixel < 2 ->
             exists v,
               pDataOut !! Z.to_nat (rowMajor (vec.mk 4 1 1) slice line pixel)
               = Some (Some v))
       /\ (forall slice line pixel,
             inVolume (vec.mk 4 1 1) slice line pixel ->
             2 <= pixel ->
             pDataOut !! Z.to_nat (rowMajor (vec.mk 4 1 1) slice line pixel) = Some None).
Proof.
  intros e.
  split; [repeat split; reflexivity |].
  destruct (exception_keeps_earlier_patches (loaded failingModel) externals ramp
              (vec.mk 4 1 1) (vec.mk 4 1 1) "CDHW" "CDHW" TypeFloat TypeFloat
              "CDHW" "CDHW" failingModel 3 1 PixelAxis
              [mkPatch 0 0 3 2] (mkPatch 2 1 3 2) [] e)
    as (pDataOut & Hcall & _ & _ & Hbefore & Hafter);
    [ reflexivity | lia | lia | vm_compute; lia | reflexivity | reflexivity
    | simpl; lia | simpl; lia | simpl; lia | simpl; lia | reflexivity | | reflexivity |].
  - constructor; [| constructor].
    exists (mkTensor kFloat (fun _ _ _ pixel : Z => pixel + 0)), float.
    split; reflexivity.
  - exists pDataOut. split; [exact Hcall |]. split; [exact Hbefore | exact Hafter].
Defined.

End StitchingSpec.

(** ** More about the inference call *)

Module InferenceExtra.
Import Planner Reassembler Inference.
Import PlannerSpec.

Section Call.
Context {V T : Type}.
Variable self : TorchInference V.
Variable ext : Externals V T.
Variable inputData : Tensor V.
Variables inputSize outputSize : vec3s.
Variables currentLayout finalLayout : string.
Variables modelInputDataType modelOutputDataType : DataType.
Variables modelInputLayout modelOutputLayout : string.

Local Abbreviation call :=
  (process self ext inputData inputSize outputSize currentLayout finalLayout
     modelInputDataType modelOutputDataType modelInputLayout modelOutputLayout).
Local Abbreviation loop :=
  (patchLoop self ext inputData outputSize currentLayout finalLayout
     modelInputDataType modelOutputDataType modelInputLayout modelOutputLayout).
Local Abbreviation dispatch := (copyDispatch ext outputSize finalLayout modelOutputLayout).

Lemma copyDispatch_length output (pDataOut pDataOut' : Container T) p :
  dispatch output pDataOut p = Some pDataOut' -> length pDataOut' = length pDataOut.
Proof.
  rewrite (InferenceSpec.copyDispatch_cases ext outputSize finalLayout modelOutputLayout).
  destruct (modelOutputTypeOf (dtype output)) as [mt |].
  - unfold copyPatch. apply ReassemblerExtra.copyPatchToOutput_length.
  - intros H. inversion H. reflexivity.
Qed.

(** The loop never changes the number of cells of the container. *)
Lemma patchLoop_length fuel forward numPixels inferencePatchSize inferencePatchOverlap :
  forall (pDataOut : Container T) s,
    match loop fuel forward numPixels inferencePatchSize inferencePatchOverlap pDataOut s with
    | Finished pDataOut' | Thrown _ pDataOut' => length pDataOut' = length pDataOut
    | Undefined | OutOfFuel => True
    end.
Proof.
  induction fuel as [| fuel IH]; intros pDataOut s; cbn [patchLoop];
    destruct (s <? numPixels); try reflexivity; try exact I.
  destruct (runPatch _ _ _ _ _ _ _ _ _ _ _) as [output | e]; [| reflexivity].
  destruct (copyDispatch _ _ _ _ _ _ _) as [pDataOut1 |] eqn:Hcopy; [| exact I].
  apply copyDispatch_length in Hcopy.
  specialize (IH pDataOut1
                (wrap64 (s + patchSizeValid
                               (planPatch numPixels inferencePatchSize
                                  inferencePatchOverlap s)))).
  destruct (patchLoop _ _ _ _ _ _ _ _ _ _ _ _ _ _ _ _ _); try exact I; congruence.
Qed.

(** A loop that ends normally visited the patches of the planning loop. *)
Lemma patchLoop_Finished_planLoop fuel forward numPixels inferencePatchSize
    inferencePatchOverlap :
  forall (pDataOut pDataOut' : Container T) s,
    loop fuel forward numPixels inferencePatchSize inferencePatchOverlap pDataOut s
    = Finished pDataOut' ->
    is_Some (planLoop fuel numPixels inferencePatchSize inferencePatchOverlap s).
Proof.
  induction fuel as [| fuel IH]; intros pDataOut pDataOut' s; cbn [patchLoop planLoop];
    destruct (s <? numPixels); try discriminate; eauto.
  destruct (runPatch _ _ _ _ _ _ _ _ _ _ _) as [output | e]; [| discriminate].
  destruct (copyDispatch _ _ _ _ _ _ _) as [pDataOut1 |]; [| discriminate].
  intros H. destruct (IH _ _ _ H) as [l Hl]. rewrite Hl. eauto.
Qed.

Lemma logException_nonempty e : logException self e <> [].
Proof. destruct e; discriminate. Qed.

(** X9: whatever the model does, a container that [process] returns has
    exactly the [outputSize.x * outputSize.y * outputSize.z] cells (the
    [size_t] product) it was allocated with. *)
Theorem process_keeps_container_size (ndebug : bool) (fuel : nat)
    (inferencePatchSize inferencePatchOverlap : Z) (pDataOut : Container T)
    (log : list string) :
  call ndebug fuel inferencePatchSize inferencePatchOverlap = Returned (Some pDataOut) log ->
  length pDataOut
  = Z.to_nat (wrap64 (wrap64 (vec.x outputSize * vec.y outputSize) * vec.z outputSize)).
Proof.
  unfold process.
  destruct (negb ndebug && isNull (m_torchModule self)); [discriminate |].
  destruct (m_torchModule self) as [forward |]; [| discriminate].
  destruct (negb ndebug && _); [discriminate |].
  match goal with
  | |- context [patchLoop ?s ?e ?i ?o ?c ?f ?mi ?mo ?mil ?mol ?fu ?fw ?n ?ps ?po ?b ?c0] =>
      pose proof (patchLoop_length fu fw n ps po b c0) as Hlen
  end.
  destruct (patchLoop _ _ _ _ _ _ _ _ _ _ _ _ _ _ _ _ _); intros H; inversion H; subst;
    rewrite Hlen; unfold allocate; apply length_replicate.
Qed.


(** X10: with the hint [modelOutputDataType = TypeHalf] every tensor that
    reaches the dispatch has element type float32, whatever the model
    returned, so the patch is always copied through the [float]
    instantiation and never skipped. *)
Theorem half_hint_copies_as_float (forward : Method V) (p : Patch) (output : Tensor V)
    (pDataOut : Container T) :
  modelOutputDataType = TypeHalf ->
  runPatch self ext inputData currentLayout finalLayout modelInputDataType
    modelOutputDataType modelInputLayout modelOutputLayout forward p = Ok output ->
  dtype output = kFloat
  /\ dispatch output pDataOut p
     = copyPatch ext outputSize finalLayout modelOutputLayout float output pDataOut p.
Proof.
  intros Hhalf Hrun.
  assert (Hd : dtype output = kFloat).
  { unfold runPatch in Hrun. rewrite Hhalf in Hrun.
    destruct (slice ext _ _ _ _) as [t1 |]; simpl in Hrun; [| discriminate].
    destruct (convertDataType ext _ _) as [t2 |]; simpl in Hrun; [| discriminate].
    destruct (changeLayout ext t2 _ _) as [t3 |]; simpl in Hrun; [| discriminate].
    destruct (match m_inputNormalizationModule self with
              | Some normalize => normalize t3
              | None => Ok t3
              end) as [t4 |]; simpl in Hrun; [| discriminate].
    destruct (forward t4) as [t5 |]; simpl in Hrun; [| discriminate].
    destruct (match m_outputDenormalizationModule self with
              | Some denormalize => denormalize t5
              | None => Ok t5
              end) as [t6 |]; simpl in Hrun; [| discriminate].
    destruct (changeLayout ext t6 _ _) as [t7 |]; simpl in Hrun; [| discriminate].
    inversion Hrun. reflexivity. }
  split; [exact Hd |].
  rewrite (InferenceSpec.copyDispatch_cases ext outputSize finalLayout modelOutputLayout), Hd.
  reflexivity.
Qed.

(** X11: on an empty axis ([inputSize.x = 0]) a call with a loaded model and
    the assertions compiled out runs no patch and returns the freshly
    allocated container, no cell of which was written, with nothing logged;
    with the assertions compiled in and [inferencePatchSize = 0] ("no
    patching") the check of line 65 fails, since the patch size is then
    replaced by 0. *)
Theorem empty_axis_runs_no_patch (forward : Method V) (fuel : nat)
    (inferencePatchSize inferencePatchOverlap : Z) :
  m_torchModule self = Some forward ->
  vec.x inputSize = 0 ->
  call true fuel inferencePatchSize inferencePatchOverlap
  = Returned (Some (allocate outputSize)) []
  /\ call false fuel 0 inferencePatchOverlap = AssertionFailed 65.
Proof.
  intros Hm Hx. unfold process. rewrite Hm, Hx. simpl. split.
  - destruct fuel; reflexivity.
  - change (effectivePatchSize 0 0) with 0. unfold patchSizeAssertion.
    pose proof (wrap32_range (inferencePatchOverlap * 2)).
    destruct (Z.ltb_spec (wrap32 (inferencePatchOverlap * 2)) 0); [lia | reflexivity].
Qed.

(** X14: with a loaded model, [inferencePatchSize = 2 *
    inferencePatchOverlap > 0] and an axis longer than one patch, a build
    with assertions stops at line 65, and a build without them never
    completes the call: whatever the model does, no number of iterations
    ends it with a normal return and an empty log. *)
Theorem equal_patch_and_double_overlap_call (forward : Method V) (fuel : nat)
    (inferencePatchOverlap : Z) :
  m_torchModule self = Some forward ->
  0 < inferencePatchOverlap ->
  2 * inferencePatchOverlap < 2 ^ 32 ->
  2 * inferencePatchOverlap < vec.x inputSize < 2 ^ 64 ->
  call false fuel (2 * inferencePatchOverlap) inferencePatchOverlap = AssertionFailed 65
  /\ forall pDataOut,
       call true fuel (2 * inferencePatchOverlap) inferencePatchOverlap
       <> Returned pDataOut [].
Proof.
  intros Hm HO HP HN. unfold process. rewrite Hm. simpl.
  unfold effectivePatchSize.
  destruct (Z.eqb_spec (2 * inferencePatchOverlap) 0); [lia |].
  split.
  - unfold patchSizeAssertion. rewrite Z.mul_comm, wrap32_small by lia.
    rewrite Z.ltb_irrefl. reflexivity.
  - intros pDataOut.
    destruct (patchLoop _ _ _ _ _ _ _ _ _ _ _ _ _ _ _ _ _) as [b | e b | |] eqn:Hloop;
      try discriminate.
    + apply patchLoop_Finished_planLoop in Hloop.
      rewrite PlannerExtra.planLoop_stuck in Hloop by lia.
      destruct Hloop as [l Hl]. discriminate Hl.
    + intros H. inversion H. eapply logException_nonempty. eassumption.
Qed.
End Call.

Import Scenario.

Lemma process_keeps_container_size_witness :
  let pDataOut : Container Z := [Some 0; Some 1; None; None] in
  let log :=
    [ "TorchInference: Error (c10::Error) while running model 'model.pt'";
      "TorchInference: shape mismatch";
      "TorchInference: frame #0: forward" ] in
  process (loaded failingModel) externals ramp (vec.mk 4 1 1) (vec.mk 4 1 1)
    "CDHW" "CDHW" TypeFloat TypeFloat "CDHW" "CDHW" false 8 3 1
  = Returned (Some pDataOut) log
  /\ length pDataOut = Z.to_nat (wrap64 (wrap64 (4 * 1) * 1)).
Proof.
  intros pDataOut log.
  assert (Hcall : process (loaded failingModel) externals ramp (vec.mk 4 1 1)
                    (vec.mk 4 1 1) "CDHW" "CDHW" TypeFloat TypeFloat "CDHW" "CDHW"
                    false 8 3 1
                  = Returned (Some pDataOut) log) by reflexivity.
  split; [exact Hcall |].
  exact (process_keeps_container_size (loaded failingModel) externals ramp
           (vec.mk 4 1 1) (vec.mk 4 1 1) "CDHW" "CDHW" TypeFloat TypeFloat
           "CDHW" "CDHW" false 8 3 1 pDataOut log Hcall).
Defined.

Lemma half_hint_copies_as_float_witness :
  let output := mkTensor kFloat (fun _ _ _ pixel : Z => pixel + 0) in
  let pDataOut : Container Z := [None; None; None; None] in
  let p := mkPatch 0 0 3 2 in
  (TypeHalf = TypeHalf
   /\ runPatch (loaded boolModel) externals ramp "CDHW" "CDHW" TypeFloat TypeHalf
        "CDHW" "CDHW" boolModel p = Ok output)
  /\ dtype output = kFloat
  /\ copyDispatch externals (vec.mk 4 1 1) "CDHW" "CDHW" output pDataOut p
     = copyPatch externals (vec.mk 4 1 1) "CDHW" "CDHW" float output pDataOut p.
Proof.
  intros output pDataOut p.
  assert (Hrun : runPatch (loaded boolModel) externals ramp "CDHW" "CDHW" TypeFloat
                   TypeHalf "CDHW" "CDHW" boolModel p = Ok output) by reflexivity.
  split; [split; [reflexivity | exact Hrun] |].
  exact (half_hint_copies_as_float (loaded boolModel) externals ramp (vec.mk 4 1 1)
           "CDHW" "CDHW" TypeFloat TypeHalf "CDHW" "CDHW" boolModel p output pDataOut
           eq_refl Hrun).
Defined.

Lemma empty_axis_runs_no_patch_witness :
  (m_torchModule (loaded failingModel) = Some failingModel
   /\ vec.x (vec.mk 0 1 1) = 0)
  /\ process (loaded failingModel) externals ramp (vec.mk 0 1 1) (vec.mk 2 1 1)
       "CDHW" "CDHW" TypeFloat TypeFloat "CDHW" "CDHW" true 0 3 1
     = Returned (Some (allocate (vec.mk 2 1 1))) []
  /\ process (loaded failingModel) externals ramp (vec.mk 0 1 1) (vec.mk 2 1 1)
       "CDHW" "CDHW" TypeFloat TypeFloat "CDHW" "CDHW" false 0 0 1
     = AssertionFailed 65.
Proof.
  split; [split; reflexivity |].
  exact (empty_axis_runs_no_patch (loaded failingModel) externals ramp (vec.mk 0 1 1)
           (vec.mk 2 1 1) "CDHW" "CDHW" TypeFloat TypeFloat "CDHW" "CDHW"
           failingModel 0 3 1 eq_refl eq_refl).
Defined.

Lemma equal_patch_and_double_overlap_call_witness :
  (m_torchModule (loaded identityModel) = Some identityModel
   /\ 0 < 1 /\ 2 * 1 < 2 ^ 32 /\ 2 * 1 < vec.x (vec.mk 4 1 1) < 2 ^ 64)
  /\ process (loaded identityModel) externals ramp (vec.mk 4 1 1) (vec.mk 4 1 1)
       "CDHW" "CDHW" TypeFloat TypeFloat "CDHW" "CDHW" false 100 (2 * 1) 1
     = AssertionFailed 65
  /\ forall pDataOut,
       process (loaded identityModel) externals ramp (vec.mk 4 1 1) (vec.mk 4 1 1)
         "CDHW" "CDHW" TypeFloat TypeFloat "CDHW" "CDHW" true 100 (2 * 1) 1
       <> Returned pDataOut [].
Proof.
  split; [repeat split; simpl; lia |].
  apply (equal_patch_and_double_overlap_call (loaded identityModel) externals ramp
           (vec.mk 4 1 1) (vec.mk 4 1 1) "CDHW" "CDHW" TypeFloat TypeFloat
           "CDHW" "CDHW" identityModel 100 1); [reflexivity | lia | lia | simpl; lia].
Defined.

End InferenceExtra.
